(** * Roo-Code core: task lifecycle, tool registry and Node.js abstractions

    A shallow embedding of the TypeScript sources:
    - [NodeLogger]      packages/roo-core/src/abstractions/nodejs/NodeLogger.ts
    - [NodeSystemInfo]  packages/roo-core/src/abstractions/nodejs/NodeSystemInfo.ts
    - [Engine]          packages/roo-core/src/engine/{Task,TaskManager}.ts
                        and types/engine.ts, as given in STEP-3-PLAN.md
    - [Tools]           packages/roo-core/src/tools/{BaseTool,ToolRegistry}.ts,
                        as given in STEP-4-PLAN.md, and [WriteToFileTool],
                        as given in the tool migration pattern
    - [DependencyContainer]  the dependency container of the abstractions
    - [ApiServer]       the engine of the example API server

    Conventions.  A JavaScript object that is shared by reference lives in an
    explicit store and is named by its index; [new Date()], [Date.now()] and
    [uuidv4()] are readings of the environment and arrive as arguments; an
    [async] function is cut at each [await] into the part that runs at the
    call and the continuations that run later, one scheduler step each.
    No listener is registered anywhere in these sources: [emit] is modelled
    as a record of the event, in order. *)

From Stdlib Require Import ZArith String Ascii List Lia Bool.
From stdpp Require Import base gmap strings list.

(* ================================================================== *)
(** * Definitions *)
(* ================================================================== *)

(** ** NodeLogger *)

Module NodeLogger.

(** [export type LogLevel = 'debug' | 'info' | 'warn' | 'error'] *)
Inductive LogLevel := debug | info | warn | error.

Definition level_literal (l : LogLevel) : string :=
  match l with
  | debug => "debug"
  | info => "info"
  | warn => "warn"
  | error => "error"
  end.

(** The table [levels] of [shouldLog]. *)
Definition levels (l : LogLevel) : Z :=
  match l with
  | debug => 0
  | info => 1
  | warn => 2
  | error => 3
  end%Z.

(** The two private fields; [level] starts at ['info']. *)
Record t := mk { level : LogLevel; prefix : string }.

Definition new (prefix : string) : t := {| level := info; prefix := prefix |}.

Definition shouldLog (self : t) (lv : LogLevel) : bool :=
  (levels lv >=? levels (level self))%Z.

(** [String.prototype.toUpperCase] on the ASCII range. *)
Definition upper_ascii (c : ascii) : ascii :=
  let n := nat_of_ascii c in
  if (97 <=? n)%nat && (n <=? 122)%nat then ascii_of_nat (n - 32) else c.

Fixpoint toUpperCase (s : string) : string :=
  match s with
  | EmptyString => EmptyString
  | String c r => String (upper_ascii c) (toUpperCase r)
  end.

Fixpoint spaces (n : nat) : string :=
  match n with
  | O => EmptyString
  | S k => String " "%char (spaces k)
  end.

(** [String.prototype.padEnd(n)] with the default filler, a space. *)
Definition padEnd (n : nat) (s : string) : string :=
  s +:+ spaces (n - String.length s).

(** A JavaScript string is falsy exactly when it is empty. *)
Definition truthy (s : string) : bool :=
  match s with
  | EmptyString => false
  | String _ _ => true
  end.

(** [timestamp] is [new Date().toISOString()], read by the caller. *)
Definition formatMessage (self : t) (timestamp : string) (lv : LogLevel)
    (message : string) : string :=
  let levelStr := padEnd 5 (toUpperCase (level_literal lv)) in
  let prefixStr := if truthy (prefix self) then "[" +:+ prefix self +:+ "] " else "" in
  timestamp +:+ " " +:+ levelStr +:+ " " +:+ prefixStr +:+ message.

(** The console methods the logger writes to, and one written line. *)
Inductive Console := console_error | console_warn | console_info | console_debug.

Definition Line : Type := Console * string.

(** The argument of [error]: [string | Error]. *)
Inductive ErrorArg :=
| Text (message : string)
| ErrorObject (message : string) (stack : option string).

(** Each method returns the lines it writes, in order.  The methods
    [error], [warn], [info] and [debug] carry an underscore here: their plain
    names are the level values. *)
Definition error_ (self : t) (timestamp : string) (message : ErrorArg) : list Line :=
  if negb (shouldLog self error) then []
  else
    let errorMessage :=
      match message with Text m => m | ErrorObject m _ => m end in
    let stack :=
      match message with Text _ => None | ErrorObject _ st => st end in
    (console_error, formatMessage self timestamp error errorMessage)
      :: match stack with
         | Some st => if truthy st then [(console_error, st)] else []
         | None => []
         end.

Definition warn_ (self : t) (timestamp : string) (message : string) : list Line :=
  if negb (shouldLog self warn) then []
  else [(console_warn, formatMessage self timestamp warn message)].

Definition info_ (self : t) (timestamp : string) (message : string) : list Line :=
  if negb (shouldLog self info) then []
  else [(console_info, formatMessage self timestamp info message)].

Definition debug_ (self : t) (timestamp : string) (message : string) : list Line :=
  if negb (shouldLog self debug) then []
  else [(console_debug, formatMessage self timestamp debug message)].

Definition log (self : t) (timestamp : string) (message : string) : list Line :=
  info_ self timestamp message.

(** The method that carries the name of level [lv], on a string. *)
Definition method (lv : LogLevel) (self : t) (timestamp message : string) : list Line :=
  match lv with
  | debug => debug_ self timestamp message
  | info => info_ self timestamp message
  | warn => warn_ self timestamp message
  | error => error_ self timestamp (Text message)
  end.

Definition setLevel (self : t) (lv : LogLevel) : t :=
  {| level := lv; prefix := prefix self |}.

(** [child] builds a fresh object and copies the level into it. *)
Definition child (self : t) (p : string) : t :=
  let childPrefix := if truthy (prefix self) then prefix self +:+ ":" +:+ p else p in
  let child := new childPrefix in
  setLevel child (level self).

End NodeLogger.

(** ** SHA-256 (the digest [crypto.createHash('sha256')] computes) *)

Module Sha256.

Local Open Scope Z_scope.

Definition w32 (x : Z) : Z := x mod 2 ^ 32.
Definition add32 (a b : Z) : Z := w32 (a + b).
Definition rotr (n x : Z) : Z := w32 (Z.lor (Z.shiftr x n) (Z.shiftl x (32 - n))).
Definition shr (n x : Z) : Z := Z.shiftr x n.
Definition not32 (x : Z) : Z := 2 ^ 32 - 1 - x.

Definition Ch (e f g : Z) : Z := Z.lxor (Z.land e f) (Z.land (not32 e) g).
Definition Maj (a b c : Z) : Z :=
  Z.lxor (Z.lxor (Z.land a b) (Z.land a c)) (Z.land b c).
Definition Sigma0 (a : Z) : Z := Z.lxor (Z.lxor (rotr 2 a) (rotr 13 a)) (rotr 22 a).
Definition Sigma1 (e : Z) : Z := Z.lxor (Z.lxor (rotr 6 e) (rotr 11 e)) (rotr 25 e).
Definition sigma0 (x : Z) : Z := Z.lxor (Z.lxor (rotr 7 x) (rotr 18 x)) (shr 3 x).
Definition sigma1 (x : Z) : Z := Z.lxor (Z.lxor (rotr 17 x) (rotr 19 x)) (shr 10 x).

(** The constants are fractional parts of roots of the first primes, as the
    standard defines them, computed here rather than listed. *)
Definition is_prime (n : nat) : bool :=
  (2 <=? n)%nat && forallb (fun d => negb (n mod d =? 0)%nat) (seq 2 (n - 2)).

Definition primes (count : nat) : list Z :=
  map Z.of_nat (firstn count (List.filter is_prime (seq 2 400))).

(** The integer cube root of [x], for [x < 2 ^ (3 * bits)]. *)
Fixpoint cube_root (bits : nat) (x acc : Z) : Z :=
  match bits with
  | O => acc
  | S k =>
      let c := acc + 2 ^ Z.of_nat k in
      cube_root k x (if c * c * c <=? x then c else acc)
  end.

(** The first 32 bits of the fractional part of the cube root of each of
    the first 64 primes. *)
Definition K : list Z :=
  map (fun p => w32 (cube_root 36 (p * 2 ^ 96) 0)) (primes 64).

(** The eight working variables. *)
Record State := mkState { ha : Z; hb : Z; hc : Z; hd : Z; he : Z; hf : Z; hg : Z; hh : Z }.

(** The first 32 bits of the fractional part of the square root of each of
    the first 8 primes. *)
Definition initial (i : nat) : Z :=
  w32 (Z.sqrt (nth i (primes 8) 0 * 2 ^ 64)).

Definition H0 : State :=
  mkState (initial 0) (initial 1) (initial 2) (initial 3)
          (initial 4) (initial 5) (initial 6) (initial 7).

Definition be64 (n : Z) : list Z :=
  map (fun i => (n / 2 ^ (8 * i)) mod 256) [7; 6; 5; 4; 3; 2; 1; 0].

Definition pad (bytes : list Z) : list Z :=
  let l := Z.of_nat (length bytes) in
  bytes ++ [0x80] ++ repeat 0 (Z.to_nat ((55 - l) mod 64)) ++ be64 (8 * l).

Fixpoint words (n : nat) (bs : list Z) : list Z :=
  match n with
  | O => []
  | S k =>
      match bs with
      | b0 :: b1 :: b2 :: b3 :: rest =>
          (((b0 * 256 + b1) * 256 + b2) * 256 + b3) :: words k rest
      | _ => []
      end
  end.

Fixpoint blocks (n : nat) (bs : list Z) : list (list Z) :=
  match n with
  | O => []
  | S k => words 16 (firstn 64 bs) :: blocks k (skipn 64 bs)
  end.

Fixpoint schedule (n : nat) (w : list Z) : list Z :=
  match n with
  | O => w
  | S k =>
      let t := length w in
      let at_ (i : nat) := nth (t - i) w 0 in
      schedule k
        (w ++ [add32 (add32 (sigma1 (at_ 2%nat)) (at_ 7%nat))
                     (add32 (sigma0 (at_ 15%nat)) (at_ 16%nat))])
  end.

Definition round (s : State) (kw : Z * Z) : State :=
  let t1 := add32 (add32 (add32 (hh s) (Sigma1 (he s)))
                         (add32 (Ch (he s) (hf s) (hg s)) (fst kw))) (snd kw) in
  let t2 := add32 (Sigma0 (ha s)) (Maj (ha s) (hb s) (hc s)) in
  mkState (add32 t1 t2) (ha s) (hb s) (hc s) (add32 (hd s) t1) (he s) (hf s) (hg s).

Definition compress (s : State) (block : list Z) : State :=
  let r := fold_left round (combine K (schedule 48 block)) s in
  mkState (add32 (ha s) (ha r)) (add32 (hb s) (hb r)) (add32 (hc s) (hc r))
          (add32 (hd s) (hd r)) (add32 (he s) (he r)) (add32 (hf s) (hf r))
          (add32 (hg s) (hg r)) (add32 (hh s) (hh r)).

Definition hash (bytes : list Z) : State :=
  let p := pad bytes in
  fold_left compress (blocks (length p / 64) p) H0.

Definition hex_chars : list ascii :=
  [ "0"; "1"; "2"; "3"; "4"; "5"; "6"; "7";
    "8"; "9"; "a"; "b"; "c"; "d"; "e"; "f" ]%char.

Definition hex_digit (d : Z) : ascii := nth (Z.to_nat d) hex_chars "0"%char.

Definition hex8 (w : Z) : list ascii :=
  map (fun i => hex_digit ((w / 16 ^ i) mod 16)) [7; 6; 5; 4; 3; 2; 1; 0].

Definition state_words (s : State) : list Z :=
  [ha s; hb s; hc s; hd s; he s; hf s; hg s; hh s].

(** The bytes [update] hashes: a string stands for its UTF-8 encoding. *)
Definition bytes_of_string (s : string) : list Z :=
  map (fun c => Z.of_N (N_of_ascii c)) (list_ascii_of_string s).

(** [createHash('sha256').update(s).digest('hex')] *)
Definition digest_hex (s : string) : string :=
  string_of_list_ascii (concat (map hex8 (state_words (hash (bytes_of_string s))))).

End Sha256.

(** ** NodeSystemInfo *)

Module NodeSystemInfo.

(** What the getters read from [os] and [process]. *)
Record Host := mkHost {
  hostname : string;          (* os.hostname() *)
  os_platform : string;       (* os.platform() *)
  os_arch : string;           (* os.arch() *)
  homedir : string;           (* os.homedir() *)
  tmpdir : string;            (* os.tmpdir() *)
  process_cwd : string;       (* process.cwd() *)
  process_env : list (string * string)  (* process.env *)
}.

(** The one private field, [_machineId: string | undefined]. *)
Record t := mk { _machineId : option string }.

Definition new : t := {| _machineId := None |}.

Definition compute_machineId (h : Host) : string :=
  let identifier := hostname h +:+ "-" +:+ os_platform h +:+ "-" +:+ os_arch h in
  substring 0 32 (Sha256.digest_hex identifier).

(** [get machineId()]: the value read and the instance afterwards.
    [!this._machineId] holds for [undefined] and for the empty string. *)
Definition machineId (h : Host) (self : t) : string * t :=
  match _machineId self with
  | Some m =>
      if NodeLogger.truthy m then (m, self)
      else let m' := compute_machineId h in (m', {| _machineId := Some m' |})
  | None => let m' := compute_machineId h in (m', {| _machineId := Some m' |})
  end.

(** Successive reads of one instance, each under the host as it is then. *)
Fixpoint reads (hs : list Host) (self : t) : list string :=
  match hs with
  | [] => []
  | h :: rest => let '(m, self') := machineId h self in m :: reads rest self'
  end.

Definition is_lower_hex (c : ascii) : bool :=
  let n := nat_of_ascii c in
  ((48 <=? n)%nat && (n <=? 57)%nat) || ((97 <=? n)%nat && (n <=? 102)%nat).

(** Two hosts that differ in everything [machineId] does not read. *)
Definition host_a : Host :=
  mkHost "build-01" "linux" "x64" "/home/roo" "/tmp" "/srv/app" [].

Definition host_b : Host :=
  mkHost "build-01" "linux" "x64" "/root" "/var/tmp" "/" [("APP_NAME", "x")].

(** *** The other getters *)

(** [process.env[name]] *)
Fixpoint env_lookup (name : string) (env : list (string * string)) : option string :=
  match env with
  | [] => None
  | (k, v) :: rest => if String.eqb k name then Some v else env_lookup name rest
  end.

Definition getEnvVar (h : Host) (name : string) : option string :=
  env_lookup name (process_env h).

(** [v || d] on a string that may be undefined: undefined and the empty
    string are falsy. *)
Definition or_else (v : option string) (d : string) : string :=
  match v with
  | Some s => if NodeLogger.truthy s then s else d
  | None => d
  end.

Definition appName (h : Host) : string := or_else (getEnvVar h "APP_NAME") "Roo-Code Server".
Definition version (h : Host) : string := or_else (getEnvVar h "APP_VERSION") "0.1.0".
Definition uriScheme (h : Host) : string := or_else (getEnvVar h "URI_SCHEME") "roo-code".

(** [s.split('.')[0]]: what stands before the first dot. *)
Fixpoint before_dot (s : string) : string :=
  match s with
  | EmptyString => EmptyString
  | String c r => if Ascii.eqb c "." then EmptyString else String c (before_dot r)
  end.

(** [s.replace('_', '-')]: a string pattern replaces its first occurrence. *)
Fixpoint replace_underscore (s : string) : string :=
  match s with
  | EmptyString => EmptyString
  | String c r =>
      if Ascii.eqb c "_" then String "-" r else String c (replace_underscore r)
  end.

(** [process.env.LANG?.split('.')[0]?.replace('_', '-') || 'en'] *)
Definition language (h : Host) : string :=
  or_else (option_map (fun l => replace_underscore (before_dot l)) (getEnvVar h "LANG")) "en".

Definition platform (h : Host) : string :=
  if String.eqb (os_platform h) "win32" || String.eqb (os_platform h) "darwin"
     || String.eqb (os_platform h) "linux"
  then os_platform h else "other".

Definition arch (h : Host) : string := os_arch h.

Definition isDevelopment (h : Host) : bool :=
  match getEnvVar h "NODE_ENV" with
  | Some v => String.eqb v "development"
  | None => false
  end.

Definition cwd (h : Host) : string := process_cwd h.
Definition homeDir (h : Host) : string := homedir h.
Definition tmpDir (h : Host) : string := tmpdir h.

Fixpoint has_char (c : ascii) (s : string) : bool :=
  match s with
  | EmptyString => false
  | String c' r => Ascii.eqb c' c || has_char c r
  end.

End NodeSystemInfo.

(** ** DependencyContainer *)

Module DependencyContainer.

Section Container.

(** What a caller supplies for an interface other than the logger's. *)
Variable Impl : Type.

(** A dependency of the container: the caller's, or the Node.js default
    the constructor builds, with the arguments it is built from. *)
Inductive Component :=
| Supplied (i : Impl)
| NodeFileSystem_new
| NodeSystemInfo_new
| NodeWorkspace_new (path : string) (fileSystem : Component) (logger : NodeLogger.t)
| NodeNotification_new (logger : NodeLogger.t)
| NodeClipboard_new
| NodeExternalApp_new
| NodeTerminal_new.

(** [DependencyContainerOptions]; a supplied logger is a [NodeLogger]. *)
Record Options := mkOptions {
  workspacePath : option string;
  logger : option NodeLogger.t;
  fileSystem : option Impl;
  workspace : option Impl;
  notification : option Impl;
  systemInfo : option Impl;
  clipboard : option Impl;
  externalApp : option Impl;
  terminal : option Impl
}.

Record t := mk {
  the_fileSystem : Component;
  the_logger : NodeLogger.t;
  the_workspace : Component;
  the_notification : Component;
  the_systemInfo : Component;
  the_clipboard : Component;
  the_externalApp : Component;
  the_terminal : Component
}.

(** [supplied || built] *)
Definition or_new (supplied : option Impl) (built : Component) : Component :=
  match supplied with
  | Some i => Supplied i
  | None => built
  end.

(** [new DependencyContainer(options)]: the container and what its last
    statement, [this.logger.info(...)], writes.  [cwd] is [process.cwd()]. *)
Definition new (options : Options) (cwd timestamp : string) : t * list NodeLogger.Line :=
  let lg := match logger options with
            | Some l => l
            | None => NodeLogger.new "roo-core"
            end in
  let fs := or_new (fileSystem options) NodeFileSystem_new in
  let si := or_new (systemInfo options) NodeSystemInfo_new in
  let ws := or_new (workspace options)
              (NodeWorkspace_new
                 (NodeSystemInfo.or_else (workspacePath options) cwd) fs lg) in
  let nf := or_new (notification options) (NodeNotification_new lg) in
  let cb := or_new (clipboard options) NodeClipboard_new in
  let ea := or_new (externalApp options) NodeExternalApp_new in
  let tm := or_new (terminal options) NodeTerminal_new in
  ({| the_fileSystem := fs; the_logger := lg; the_workspace := ws;
      the_notification := nf; the_systemInfo := si; the_clipboard := cb;
      the_externalApp := ea; the_terminal := tm |},
   NodeLogger.info_ lg timestamp "Dependency container initialized").

Definition createNodeJsContainer (options : Options) (cwd timestamp : string)
    : t * list NodeLogger.Line :=
  new options cwd timestamp.

Definition createChildLogger (self : t) (p : string) : NodeLogger.t :=
  NodeLogger.child (the_logger self) p.

End Container.

Arguments Supplied {Impl}.
Arguments NodeFileSystem_new {Impl}.
Arguments NodeSystemInfo_new {Impl}.
Arguments NodeWorkspace_new {Impl}.
Arguments NodeNotification_new {Impl}.
Arguments NodeClipboard_new {Impl}.
Arguments NodeExternalApp_new {Impl}.
Arguments NodeTerminal_new {Impl}.
Arguments mkOptions {Impl}.
Arguments workspacePath {Impl}.
Arguments logger {Impl}.
Arguments fileSystem {Impl}.
Arguments workspace {Impl}.
Arguments notification {Impl}.
Arguments systemInfo {Impl}.
Arguments clipboard {Impl}.
Arguments externalApp {Impl}.
Arguments terminal {Impl}.
Arguments mk {Impl}.
Arguments the_fileSystem {Impl}.
Arguments the_logger {Impl}.
Arguments the_workspace {Impl}.
Arguments the_notification {Impl}.
Arguments the_systemInfo {Impl}.
Arguments the_clipboard {Impl}.
Arguments the_externalApp {Impl}.
Arguments the_terminal {Impl}.
Arguments or_new {Impl}.
Arguments new {Impl}.
Arguments createNodeJsContainer {Impl}.
Arguments createChildLogger {Impl}.

End DependencyContainer.

(** ** Task and TaskManager *)

Module Engine.

(** *** types/engine.ts *)

(** JavaScript numbers; only integer values occur on the paths modelled
    (token counts, and times in milliseconds). *)
Abbreviation number := Z (only parsing).

Record TaskConfig := mkConfig {
  maxTokens : option number;
  temperature : option number;
  provider : option string;
  model : option string;
  systemPrompt : option string;
  workspaceRoot : option string;
  allowedTools : option (list string)
}.

(** [export type TaskStatus =
      'pending' | 'running' | 'completed' | 'error' | 'cancelled'] *)
Inductive TaskStatus := pending | running | completed | error | cancelled.

Definition status_literal (s : TaskStatus) : string :=
  match s with
  | pending => "pending"
  | running => "running"
  | completed => "completed"
  | error => "error"
  | cancelled => "cancelled"
  end.

Definition status_eqb (a b : TaskStatus) : bool :=
  match a, b with
  | pending, pending | running, running | completed, completed
  | error, error | cancelled, cancelled => true
  | _, _ => false
  end.

Record TaskResult := mkResult {
  success : bool;
  output : string;
  tokensUsed : number;
  duration : number;
  result_error : option string       (* [error?: string] *)
}.

Record SubTask := mkSubTask {
  sub_id : string;
  description : string;
  sub_status : TaskStatus
}.

(** A thrown value, [new Error(message)]. *)
Record Error := mkError { message : string }.

(** *** engine/Task.ts *)

(** The fields of a [Task] object.  [task_error] is the field [error] and
    [cancelled_flag] the private field [cancelled]; both names are taken by
    the status values. *)
Record Task := mkTask {
  id : string;
  input : string;
  config : TaskConfig;
  status : TaskStatus;
  createdAt : number;
  startedAt : option number;
  completedAt : option number;
  result : option TaskResult;
  task_error : option Error;
  subTasks : list SubTask;
  cancelled_flag : bool
}.

(** What a Task emits on its own emitter. *)
Inductive TaskEvent :=
| statusChanged (s : TaskStatus)
| completed_event (r : TaskResult)       (* emit('completed', result) *)
| error_event (e : Error)                (* emit('error', error) *)
| cancelled_event.                       (* emit('cancelled') *)

(** [new Task(id, input, config, dependencies)], built at time [now]. *)
Definition Task_new (taskId input : string) (config : TaskConfig) (now : number) : Task :=
  {| id := taskId; input := input; config := config;
     status := pending; createdAt := now;
     startedAt := None; completedAt := None;
     result := None; task_error := None; subTasks := [];
     cancelled_flag := false |}.

Definition not_pending (t : Task) : Error :=
  mkError ("Task " +:+ id t +:+ " is not in pending state").

(** [execute()], the guard before [try]: the error thrown when the Task is
    not pending. *)
Definition execute_guard (t : Task) : option Error :=
  if status_eqb (status t) pending then None else Some (not_pending t).

(** [execute()], from [try] to the call of [executeTaskLogic]. *)
Definition execute_enter (now : number) (t : Task) : Task :=
  {| id := id t; input := input t; config := config t;
     status := running; createdAt := createdAt t;
     startedAt := Some now; completedAt := completedAt t;
     result := result t; task_error := task_error t; subTasks := subTasks t;
     cancelled_flag := cancelled_flag t |}.

Definition starting_message (t : Task) : string :=
  "Starting task " +:+ id t +:+ ": " +:+ input t.

(** [executeTaskLogic()] after [aiProvider.complete] has resolved with
    [response]; [now] is [Date.now()]. *)
Definition executeTaskLogic_result (response : string) (now : number) (t : Task)
    : TaskResult :=
  {| success := true;
     output := response;
     tokensUsed := 0%Z;
     duration := (now - match startedAt t with Some s => s | None => 0 end)%Z;
     result_error := None |}.

(** [execute()] after [executeTaskLogic] has returned [r]. *)
Definition execute_complete (r : TaskResult) (now : number) (t : Task) : Task :=
  {| id := id t; input := input t; config := config t;
     status := completed; createdAt := createdAt t;
     startedAt := startedAt t; completedAt := Some now;
     result := Some r; task_error := task_error t; subTasks := subTasks t;
     cancelled_flag := cancelled_flag t |}.

(** [execute()], the [catch] block. *)
Definition execute_catch (e : Error) (now : number) (t : Task) : Task :=
  {| id := id t; input := input t; config := config t;
     status := error; createdAt := createdAt t;
     startedAt := startedAt t; completedAt := Some now;
     result := result t; task_error := Some e; subTasks := subTasks t;
     cancelled_flag := cancelled_flag t |}.

(** [cancel()]: the Task afterwards and what it emitted. *)
Definition Task_cancel (now : number) (t : Task) : Task * list TaskEvent :=
  match status t with
  | completed | error => (t, [])
  | _ =>
      ({| id := id t; input := input t; config := config t;
          status := cancelled; createdAt := createdAt t;
          startedAt := startedAt t; completedAt := Some now;
          result := result t; task_error := task_error t; subTasks := subTasks t;
          cancelled_flag := true |},
       [statusChanged cancelled; cancelled_event])
  end.

(** [checkCancellation()]; no method calls it. *)
Definition checkCancellation (t : Task) : option Error :=
  if cancelled_flag t then Some (mkError "Task was cancelled") else None.

(** *** engine/TaskManager.ts *)

(** A reference to a Task object: its index in the store. *)
Abbreviation ref := nat (only parsing).

(** How an [async] call ends. *)
Inductive Settlement :=
| Resolved (v : option TaskResult)
| Rejected (e : Error).

(** An [async] call that reached an [await]. *)
Inductive Call :=
| AwaitingProvider (r : ref)
    (* executeTask -> task.execute -> executeTaskLogic, at
       [await this.dependencies.aiProvider.complete(this.input)] *)
| AwaitingExecute (r : ref) (o : Error + TaskResult)
    (* executeTask at [await task.execute()], whose promise has settled *)
| AwaitingCancel (r : ref)
    (* cancelTask at [await task.cancel()] *)
| Done (s : Settlement).

(** Everything observable, in the order it happened. *)
Inductive Event :=
| TaskEmit (r : ref) (e : TaskEvent)
| LoggerLog (msg : string)                     (* dependencies.logger.log *)
| ProviderComplete (r : ref) (prompt : string) (* dependencies.aiProvider.complete *)
| taskCreated (r : ref)
| taskStarted (r : ref)
| taskCompleted (r : ref) (res : TaskResult)
| taskError (r : ref) (e : Error)
| taskCancelled (r : ref).

Record World := mkWorld {
  heap : list Task;             (* the Task objects *)
  tasks : gmap string ref;      (* TaskManager.tasks *)
  activeTask : option ref;      (* TaskManager.activeTask *)
  calls : list Call;            (* one slot per call that has suspended *)
  trace : list Event
}.

Definition init : World :=
  {| heap := []; tasks := ∅; activeTask := None; calls := []; trace := [] |}.

Definition set_heap (h : list Task) (w : World) : World :=
  {| heap := h; tasks := tasks w; activeTask := activeTask w;
     calls := calls w; trace := trace w |}.
Definition set_activeTask (a : option ref) (w : World) : World :=
  {| heap := heap w; tasks := tasks w; activeTask := a;
     calls := calls w; trace := trace w |}.
Definition set_calls (c : list Call) (w : World) : World :=
  {| heap := heap w; tasks := tasks w; activeTask := activeTask w;
     calls := c; trace := trace w |}.
Definition emit (es : list Event) (w : World) : World :=
  {| heap := heap w; tasks := tasks w; activeTask := activeTask w;
     calls := calls w; trace := trace w ++ es |}.

(** What a call hands back to its caller at once: a promise that is already
    settled, or the slot of the suspended call. *)
Inductive Returned :=
| Now (s : Settlement)
| Later (slot : nat).

Definition not_found (taskId : string) : Error :=
  mkError ("Task " +:+ taskId +:+ " not found").

(** The error of the guard [if (this.activeTask)]. *)
Definition AlreadyRunning : Error := mkError "Another task is already running".

(** [createTask(input, config)]; [uuid] is what [uuidv4()] returned.  No
    [await] occurs: the call runs to its end and returns the new Task. *)
Definition createTask (input : string) (config : TaskConfig) (uuid : string)
    (now : number) (w : World) : ref * World :=
  let r := length (heap w) in
  let task := Task_new uuid input config now in
  (r, emit [taskCreated r]
        {| heap := heap w ++ [task]; tasks := <[uuid := r]> (tasks w);
           activeTask := activeTask w; calls := calls w; trace := trace w |}).

(** [executeTask(taskId)] up to its first [await]. *)
Definition executeTask (taskId : string) (now : number) (w : World)
    : Returned * World :=
  match tasks w !! taskId with
  | None => (Now (Rejected (not_found taskId)), w)
  | Some r =>
      match activeTask w with
      | Some _ => (Now (Rejected AlreadyRunning), w)
      | None =>
          let w1 := emit [taskStarted r] (set_activeTask (Some r) w) in
          let slot := length (calls w1) in
          match heap w1 !! r with
          | None => (Later slot, w1)   (* no entry of [tasks] dangles *)
          | Some t =>
              match execute_guard t with
              | Some e =>
                  (Later slot, set_calls (calls w1 ++ [AwaitingExecute r (inl e)]) w1)
              | None =>
                  let t' := execute_enter now t in
                  (Later slot,
                   set_calls (calls w1 ++ [AwaitingProvider r])
                     (emit [TaskEmit r (statusChanged running);
                            LoggerLog (starting_message t');
                            ProviderComplete r (input t')]
                        (set_heap (<[r := t']> (heap w1)) w1)))
              end
          end
      end
  end.

(** The provider's promise settles and [task.execute()] runs to its end:
    [o] is the rejection or the response, [now_logic] the [Date.now()] of
    [executeTaskLogic], [now] the [new Date()] of [execute].  The rest of
    [executeTaskLogic] writes no field, so it is taken together with the
    rest of [execute], which runs one tick later. *)
Definition provider_settles (slot : nat) (o : Error + string)
    (now_logic now : number) (w : World) : World :=
  match calls w !! slot with
  | Some (AwaitingProvider r) =>
      match heap w !! r with
      | None => w
      | Some t =>
          match o with
          | inr response =>
              let res := executeTaskLogic_result response now_logic t in
              set_calls (<[slot := AwaitingExecute r (inr res)]> (calls w))
                (emit [TaskEmit r (statusChanged completed);
                       TaskEmit r (completed_event res)]
                   (set_heap (<[r := execute_complete res now t]> (heap w)) w))
          | inl e =>
              set_calls (<[slot := AwaitingExecute r (inl e)]> (calls w))
                (emit [TaskEmit r (statusChanged error);
                       TaskEmit r (error_event e)]
                   (set_heap (<[r := execute_catch e now t]> (heap w)) w))
          end
      end
  | _ => w
  end.

(** [cancelTask(taskId)] up to its [await]; [task.cancel()] has no [await]
    of its own and has run to its end by then. *)
Definition cancelTask (taskId : string) (now : number) (w : World)
    : Returned * World :=
  match tasks w !! taskId with
  | None => (Now (Rejected (not_found taskId)), w)
  | Some r =>
      let slot := length (calls w) in
      match heap w !! r with
      | None => (Later slot, w)
      | Some t =>
          let '(t', es) := Task_cancel now t in
          (Later slot,
           set_calls (calls w ++ [AwaitingCancel r])
             (emit (map (TaskEmit r) es) (set_heap (<[r := t']> (heap w)) w)))
      end
  end.

(** The continuation of a suspended manager call. *)
Definition resume (slot : nat) (w : World) : World :=
  match calls w !! slot with
  | Some (AwaitingExecute r (inr res)) =>
      (* emit taskCompleted; return result; finally *)
      set_calls (<[slot := Done (Resolved (Some res))]> (calls w))
        (set_activeTask None (emit [taskCompleted r res] w))
  | Some (AwaitingExecute r (inl e)) =>
      (* catch: emit taskError; throw; finally *)
      set_calls (<[slot := Done (Rejected e)]> (calls w))
        (set_activeTask None (emit [taskError r e] w))
  | Some (AwaitingCancel r) =>
      set_calls (<[slot := Done (Resolved None)]> (calls w))
        (emit [taskCancelled r] w)
  | _ => w
  end.

(** [getTask(taskId)], read through to the object. *)
Definition getTask (taskId : string) (w : World) : option Task :=
  match tasks w !! taskId with
  | Some r => heap w !! r
  | None => None
  end.

Definition getActiveTask (w : World) : option ref := activeTask w.

(** *** Runs *)

(** One step of a run: a call on the manager, or a continuation. *)
Inductive Label :=
| CreateTask (input : string) (config : TaskConfig) (uuid : string) (now : number)
| ExecuteTask (taskId : string) (now : number)
| CancelTask (taskId : string) (now : number)
| ProviderSettles (slot : nat) (o : Error + string) (now_logic now : number)
| Resume (slot : nat).

Definition step (l : Label) (w : World) : World :=
  match l with
  | CreateTask input config uuid now => snd (createTask input config uuid now w)
  | ExecuteTask taskId now => snd (executeTask taskId now w)
  | CancelTask taskId now => snd (cancelTask taskId now w)
  | ProviderSettles slot o now_logic now => provider_settles slot o now_logic now w
  | Resume slot => resume slot w
  end.

Definition run (ls : list Label) (w : World) : World :=
  fold_left (fun w l => step l w) ls w.

Inductive reachable : World -> Prop :=
| reachable_init : reachable init
| reachable_step l w : reachable w -> reachable (step l w).

(** [await manager.cancelTask(taskId)]: the call and its continuation. *)
Definition cancelTask_awaited (taskId : string) (now : number) (w : World)
    : Settlement * World :=
  match cancelTask taskId now w with
  | (Now s, w') => (s, w')
  | (Later slot, w') => (Resolved None, resume slot w')
  end.

Definition is_terminal (s : TaskStatus) : bool :=
  match s with
  | completed | error | cancelled => true
  | pending | running => false
  end.

(** How many times the model was asked, over a whole trace. *)
Fixpoint provider_calls (tr : list Event) : nat :=
  match tr with
  | [] => 0
  | ProviderComplete _ _ :: rest => S (provider_calls rest)
  | _ :: rest => provider_calls rest
  end.

Definition defaultConfig : TaskConfig :=
  mkConfig None None None None None None None.

(** *** What the properties below speak of *)

(** The statuses the specification calls active, by their literals. *)
Definition is_active (s : TaskStatus) : bool :=
  String.eqb (status_literal s) "running"
  || String.eqb (status_literal s) "awaiting_approval".

(** The status values of the specification, and those of [TaskStatus]. *)
Definition spec_status_values : list string :=
  ["pending"; "running"; "awaiting_approval"; "completed"; "failed"; "cancelled"].

Definition status_values : list string :=
  ["pending"; "running"; "completed"; "error"; "cancelled"].

(** The status changes [execute] and [cancel] make on a Task that has not
    been cancelled before. *)
Inductive transition : TaskStatus -> TaskStatus -> Prop :=
| pending_running : transition pending running
| running_completed : transition running completed
| running_error : transition running error
| pending_cancelled : transition pending cancelled
| running_cancelled : transition running cancelled.

Definition is_execute (l : Label) : bool :=
  match l with ExecuteTask _ _ => true | _ => false end.

Definition is_cancel (l : Label) : bool :=
  match l with CancelTask _ _ => true | _ => false end.

(** The Task a suspended [executeTask] call is running. *)
Definition exec_ref (c : Call) : option ref :=
  match c with
  | AwaitingProvider r | AwaitingExecute r _ => Some r
  | AwaitingCancel _ | Done _ => None
  end.

(** What every reachable world satisfies. *)
Record Inv (w : World) : Prop := mkInv {
  inv_tasks : forall k r, tasks w !! k = Some r -> r < length (heap w);
  inv_running : forall r t,
    heap w !! r = Some t -> status t = running -> activeTask w = Some r;
  inv_exec_active : forall i c r,
    calls w !! i = Some c -> exec_ref c = Some r -> activeTask w = Some r;
  inv_exec_unique : forall i j ci cj,
    calls w !! i = Some ci -> calls w !! j = Some cj ->
    is_Some (exec_ref ci) -> is_Some (exec_ref cj) -> i = j;
  inv_settled : forall i r o t,
    calls w !! i = Some (AwaitingExecute r o) -> heap w !! r = Some t ->
    status t <> running;
  inv_provider : forall i r,
    calls w !! i = Some (AwaitingProvider r) ->
    exists t, heap w !! r = Some t
              /\ (status t = running \/ cancelled_flag t = true)
}.

(** Task [r] has not been started, and no call is running it. *)
Definition Idle (may_cancel : bool) (r : ref) (w : World) : Prop :=
  exists t,
    heap w !! r = Some t
    /\ startedAt t = None
    /\ (status t = pending \/ (may_cancel = true /\ status t = cancelled))
    /\ forall i, calls w !! i <> Some (AwaitingProvider r).

(** *** What a run has done *)

(** The ids handed out by the [createTask] calls of a run. *)
Fixpoint created_ids (ls : list Label) : list string :=
  match ls with
  | [] => []
  | CreateTask _ _ uuid _ :: rest => uuid :: created_ids rest
  | _ :: rest => created_ids rest
  end.

(** The fields of a Task agree with its status. *)
Definition consistent (t : Task) : Prop :=
  match status t with
  | pending =>
      startedAt t = None /\ completedAt t = None
      /\ result t = None /\ task_error t = None /\ cancelled_flag t = false
  | running =>
      is_Some (startedAt t) /\ completedAt t = None
      /\ result t = None /\ task_error t = None /\ cancelled_flag t = false
  | cancelled =>
      is_Some (completedAt t)
      /\ result t = None /\ task_error t = None /\ cancelled_flag t = true
  | completed =>
      is_Some (startedAt t) /\ is_Some (completedAt t)
      /\ is_Some (result t) /\ task_error t = None
  | error =>
      is_Some (startedAt t) /\ is_Some (completedAt t)
      /\ result t = None /\ is_Some (task_error t)
  end.

(** A second invariant of the manager: the Tasks are consistent, a Task a
    provider call is pending for has been started, the calls name Tasks of
    the heap, and the lock is only held for a call in flight. *)
Record Inv2 (w : World) : Prop := mkInv2 {
  inv2_consistent : forall r t, heap w !! r = Some t -> consistent t;
  inv2_provider : forall i r,
    calls w !! i = Some (AwaitingProvider r) ->
    exists t, heap w !! r = Some t
              /\ (status t = running \/ status t = cancelled)
              /\ is_Some (startedAt t);
  inv2_valid : forall i c r,
    calls w !! i = Some c -> exec_ref c = Some r -> r < length (heap w);
  inv2_active : forall r,
    activeTask w = Some r ->
    exists i c, calls w !! i = Some c /\ exec_ref c = Some r
}.

(** The status the last [statusChanged] event of Task [r] in [tr]
    announced; [s] when there is none. *)
Fixpoint announced (r : ref) (tr : list Event) (s : TaskStatus) : TaskStatus :=
  match tr with
  | [] => s
  | TaskEmit r' (statusChanged s') :: rest =>
      announced r rest (if Nat.eqb r' r then s' else s)
  | _ :: rest => announced r rest s
  end.

(** The status of Task [r]; [pending] for a reference to no Task. *)
Definition status_or_pending (w : World) (r : ref) : TaskStatus :=
  match heap w !! r with Some t => status t | None => pending end.

(** How many Tasks of a heap have been started. *)
Fixpoint started_tasks (h : list Task) : nat :=
  match h with
  | [] => 0
  | t :: rest =>
      match startedAt t with
      | Some _ => S (started_tasks rest)
      | None => started_tasks rest
      end
  end.

End Engine.

(** ** The example API server *)

Module ApiServer.

Record SessionConfig := mkSessionConfig {
  provider : string;
  apiKey : string;
  model : string;
  mode : string;
  allowedPaths : list string;
  maxFileSize : Z
}.

Record Session := mkSession {
  id : string;
  userId : string;
  workspaceId : string;
  createdAt : Z;
  config : SessionConfig
}.

Record TaskRequest := mkRequest {
  sessionId : string;
  input : string;
  images : option (list string)
}.

(** The object literal [executeTask] builds. *)
Record TaskObject := mkTaskObject {
  task_id : string;
  task_sessionId : string;
  task_input : string;
  task_status : string;
  task_workspace : string
}.

(** [class RooCodeEngine]: its two maps, and what it sent to the sockets
    ([emitToSession]: session, event, task id, type, content). *)
Record RooCodeEngine := mkEngine {
  sessions : gmap string Session;
  activeTasks : gmap string TaskObject;
  sent : list (string * string * (string * string * string))
}.

Definition new : RooCodeEngine :=
  {| sessions := ∅; activeTasks := ∅; sent := [] |}.

(** [createSession(userId, config)]; [uuid1], [uuid2] are the two
    [uuidv4()] results. *)
Definition createSession (user : string) (cfg : SessionConfig)
    (uuid1 uuid2 : string) (now : Z) (e : RooCodeEngine) : Session * RooCodeEngine :=
  let session := mkSession uuid1 user uuid2 now cfg in
  (session,
   {| sessions := <[uuid1 := session]> (sessions e);
      activeTasks := activeTasks e; sent := sent e |}).

(** [executeTask(request)].  [executeTaskAsync] is started and not
    awaited; up to its end it has no [await] and sends one message. *)
Definition executeTask (request : TaskRequest) (uuid : string) (e : RooCodeEngine)
    : (Engine.Error + string) * RooCodeEngine :=
  match sessions e !! sessionId request with
  | None => (inl (Engine.mkError "Session not found"), e)
  | Some session =>
      let taskId := uuid in
      let workspacePath := "/tmp/roo-workspaces/" +:+ workspaceId session in
      let task := mkTaskObject taskId (sessionId request) (input request)
                    "running" workspacePath in
      (inr taskId,
       {| sessions := sessions e;
          activeTasks := <[taskId := task]> (activeTasks e);
          sent := sent e ++ [(sessionId request, "task.response",
                              (taskId, "message", "Task started successfully"))] |})
  end.

(** What the HTTP handlers ask of the engine, with the values [uuidv4()]
    and [new Date()] give during the call. *)
Inductive Request :=
| CreateSession (userId : string) (config : SessionConfig)
                (uuid1 uuid2 : string) (now : Z)
| ExecuteTask (request : TaskRequest) (uuid : string).

Definition handle (q : Request) (e : RooCodeEngine) : RooCodeEngine :=
  match q with
  | CreateSession user cfg uuid1 uuid2 now =>
      snd (createSession user cfg uuid1 uuid2 now e)
  | ExecuteTask request uuid => snd (executeTask request uuid e)
  end.

Definition serve (qs : list Request) (e : RooCodeEngine) : RooCodeEngine :=
  fold_left (fun e q => handle q e) qs e.

(** The session ids handed out by the [createSession] calls of [qs]. *)
Fixpoint session_ids (qs : list Request) : list string :=
  match qs with
  | [] => []
  | CreateSession _ _ uuid1 _ _ :: rest => uuid1 :: session_ids rest
  | ExecuteTask _ _ :: rest => session_ids rest
  end.

(** The message [executeTaskAsync] sends for a task. *)
Definition started (t : TaskObject) : string * string * (string * string * string) :=
  (task_sessionId t, "task.response", (task_id t, "message", "Task started successfully")).

(** An invariant of the engine: sessions and tasks are stored under their
    own ids; every task is running, in a known session, and announced. *)
Record ApiInv (e : RooCodeEngine) : Prop := mkApiInv {
  api_sessions : forall k s, sessions e !! k = Some s -> id s = k;
  api_tasks : forall k t,
    activeTasks e !! k = Some t ->
    task_id t = k /\ task_status t = "running"
    /\ is_Some (sessions e !! task_sessionId t)
    /\ In (started t) (sent e)
}.

End ApiServer.

(** ** Tool registry *)

Module Tools.

(** How a call ends for its caller: with a value, or by throwing (for an
    [async] function: a promise that resolves, or one that rejects). *)
Inductive Completion (A : Type) :=
| Returns (a : A)
| Throws (e : Engine.Error).
Arguments Returns {A} a.
Arguments Throws {A} e.

(** Modelled from the spec: the type [ToolResult], which BaseTool.ts and
    ToolRegistry.ts import and no source file declares.  The spec gives its
    two shapes, [{success: true, output}] and
    [{success: false, errorKind, message}], and the error kinds. *)
Inductive ErrorKind :=
| ValidationError | SandboxViolation
| NotFound | PermissionDenied | Timeout | Unavailable.

Inductive ToolResult :=
| Success (output : string)
| Failure (errorKind : ErrorKind) (message : string).

(** Modelled from the spec: the type [ToolSchema], declared in no source
    file; of a declared schema, the parameters a call must carry. *)
Definition ToolSchema : Type := list string.

Section Registry.

(** What a tool may read and change when it runs. *)
Variable Env : Type.

(** tools/BaseTool.ts: the abstract members.  [params: any] is read as the
    object's own string-valued properties. *)
Record BaseTool := mkTool {
  name : string;
  description : string;
  schema : ToolSchema;
  execute : gmap string string -> Env -> Completion ToolResult * Env
}.

(** tools/ToolRegistry.ts *)
Record ToolRegistry := mkRegistry { tools : gmap string BaseTool }.

Definition empty : ToolRegistry := {| tools := ∅ |}.

Definition register (tool : BaseTool) (reg : ToolRegistry) : ToolRegistry :=
  {| tools := <[name tool := tool]> (tools reg) |}.

Definition get (n : string) (reg : ToolRegistry) : option BaseTool :=
  tools reg !! n.

Definition tool_not_found (n : string) : Engine.Error :=
  Engine.mkError ("Tool " +:+ n +:+ " not found").

(** [async execute(name, params)] *)
Definition registry_execute (reg : ToolRegistry) (n : string)
    (params : gmap string string) (env : Env) : Completion ToolResult * Env :=
  match get n reg with
  | None => (Throws (tool_not_found n), env)
  | Some tool => execute tool params env
  end.

End Registry.

Arguments mkTool {Env}.
Arguments name {Env}.
Arguments description {Env}.
Arguments schema {Env}.
Arguments execute {Env}.
Arguments mkRegistry {Env}.
Arguments tools {Env}.
Arguments empty {Env}.
Arguments register {Env}.
Arguments get {Env}.
Arguments registry_execute {Env}.

(** *** The file tools *)

(** tools/BaseTool.ts, the protected helpers.  The body of each is a
    comment and nothing else, so a call returns [undefined] whatever it is
    given: nothing is validated, checked or refused. *)
Definition validateParams (params : gmap string string) : Completion unit :=
  Returns tt.

Definition checkPermissions (action : string) : Completion unit :=
  Returns tt.

Definition sanitizePath (path : string) : Completion (option string) :=
  Returns None.

(** interfaces/IFileSystem.ts: of the injected file system, the method
    the tool below calls, over the state [S] of an implementation. *)
Record IFileSystem (S : Type) := mkFileSystem {
  writeFile : string -> string -> S -> Completion unit * S
}.
Arguments mkFileSystem {S}.
Arguments writeFile {S}.

(** An implementation to run the tool on: it keeps each file under the
    path it was given, resolves, and records the calls it received. *)
Inductive FsCall :=
| WriteFileCall (path content : string).

Record MemFs := mkMemFs {
  files : gmap string string;
  received : list FsCall
}.

Definition memFs : IFileSystem MemFs :=
  {| writeFile := fun p c st =>
       (Returns tt,
        {| files := <[p := c]> (files st);
           received := received st ++ [WriteFileCall p c] |}) |}.

(** The tool migration pattern, [class WriteToFileTool extends BaseTool]:
    [execute(params: { path: string, content: string })] awaits
    [this.deps.fileSystem.writeFile(params.path, params.content)] and
    returns nothing. *)
Record WriteParams := mkWriteParams {
  path : string;
  content : string
}.

Definition WriteToFileTool_execute {S : Type} (fileSystem : IFileSystem S)
    (params : WriteParams) (st : S) : Completion unit * S :=
  match writeFile fileSystem (path params) (content params) st with
  | (Returns _, st') => (Returns tt, st')
  | (Throws e, st') => (Throws e, st')
  end.

(** *** The registry's list of tools *)

Section Registry_list.

Variable Env : Type.

(** [getAllTools()]: the values of the map.  A JavaScript Map lists them in
    the order their names were first registered; the finite map here keeps
    no such order, so this list is the source's up to the order of its
    entries. *)
Definition getAllTools (reg : ToolRegistry Env) : list (BaseTool Env) :=
  (map_to_list (tools reg)).*2.

(** [register] called on each tool of [ts] in turn. *)
Definition register_all (ts : list (BaseTool Env)) (reg : ToolRegistry Env)
    : ToolRegistry Env :=
  fold_left (fun reg tool => register tool reg) ts reg.

(** Among [ts], the tool given last under the name [n]. *)
Fixpoint last_named (n : string) (ts : list (BaseTool Env)) : option (BaseTool Env) :=
  match ts with
  | [] => None
  | tool :: rest =>
      match last_named n rest with
      | Some later => Some later
      | None => if String.eqb (name tool) n then Some tool else None
      end
  end.

End Registry_list.

Arguments getAllTools {Env}.
Arguments register_all {Env}.
Arguments last_named {Env}.

End Tools.

(* ================================================================== *)
(** * Properties *)
(* ================================================================== *)

(** ** NodeLogger *)

Section NodeLogger_facts.
Import NodeLogger.

Lemma shouldLog_iff (self : NodeLogger.t) (lv : LogLevel) :
  shouldLog self lv = true <-> (levels (level self) <= levels lv)%Z.
Proof. unfold shouldLog. rewrite Z.geb_le. reflexivity. Qed.

Lemma method_written (lv : LogLevel) (self : NodeLogger.t) (ts m : string) :
  method lv self ts m <> [] <-> shouldLog self lv = true.
Proof.
  destruct lv; simpl;
    unfold debug_, info_, warn_, error_;
    destruct (shouldLog self _); simpl; split; congruence.
Qed.

Lemma error_written (self : NodeLogger.t) (ts : string) (e : ErrorArg) :
  error_ self ts e <> [] <-> shouldLog self error = true.
Proof.
  unfold error_. destruct (shouldLog self error); simpl; split; congruence.
Qed.

(** C9.  The four levels are ranked debug < info < warn < error; a call of
    the method of level [lv] writes to the console if and only if the rank
    of [lv] is at least the rank of the logger's level (for [error] also
    when it is given an Error object); [log] is [info]; and a child logger
    has the level its parent had when [child] was called, whatever level the
    parent is set to afterwards. *)
Theorem C9_logger_threshold :
  forall (self : NodeLogger.t) (timestamp : string),
    ((levels debug < levels info)%Z /\ (levels info < levels warn)%Z
     /\ (levels warn < levels error)%Z)
    /\ (forall lv message,
          method lv self timestamp message <> []
          <-> (levels (level self) <= levels lv)%Z)
    /\ (forall e,
          error_ self timestamp e <> []
          <-> (levels (level self) <= levels error)%Z)
    /\ (forall message, log self timestamp message = info_ self timestamp message)
    /\ (forall p, level (child self p) = level self)
    /\ (forall p lv,
          let c := child self p in
          let parent := setLevel self lv in
          level c = level self /\ level parent = lv).
Proof.
  intros self timestamp. repeat split; try reflexivity.
  - rewrite method_written, shouldLog_iff. tauto.
  - rewrite method_written, shouldLog_iff. tauto.
  - rewrite error_written, shouldLog_iff. tauto.
  - rewrite error_written, shouldLog_iff. tauto.
Qed.

Example logger_info_line :
  info_ (child (new "core") "task") "2025-01-01T00:00:00.000Z" "ready"
  = [(console_info, "2025-01-01T00:00:00.000Z INFO  [core:task] ready")].
Proof. reflexivity. Qed.

Example logger_debug_silent :
  debug_ (new "core") "2025-01-01T00:00:00.000Z" "ready" = [].
Proof. reflexivity. Qed.

End NodeLogger_facts.

(** *** Levels, children and the layout of a line *)

Section NodeLogger_more.
Import NodeLogger.

(** X10.  No level silences [error]: it writes at every level of the
    logger.  At level [debug] every method writes; at level [error] only
    [error] does. *)
Theorem X_error_never_silenced :
  forall (self : NodeLogger.t) (timestamp : string) (e : ErrorArg) (lv : LogLevel)
         (message : string),
    error_ self timestamp e <> []
    /\ method lv (setLevel self debug) timestamp message <> []
    /\ (method lv (setLevel self error) timestamp message <> [] -> lv = error).
Proof.
  intros self ts e lv m. split; [|split].
  - unfold error_, shouldLog. destruct (level self); simpl; discriminate.
  - destruct lv; simpl; discriminate.
  - destruct lv; simpl; intros H; try reflexivity; exfalso; apply H; reflexivity.
Qed.

(** X11.  Raising the level of a logger only drops lines: what a method
    writes at the higher level is nothing, or the very line it writes at
    the lower level. *)
Theorem X_raising_level_only_drops :
  forall (self : NodeLogger.t) (l1 l2 lv : LogLevel) (timestamp message : string),
    (levels l1 <= levels l2)%Z ->
    method lv (setLevel self l2) timestamp message = []
    \/ method lv (setLevel self l2) timestamp message
       = method lv (setLevel self l1) timestamp message.
Proof.
  intros self l1 l2 lv ts m Hle.
  destruct l1, l2, lv; simpl in *; try lia; auto.
Qed.

(** X11 for [warn] between the levels [debug] and [error]. *)
Lemma X_raising_level_only_drops_witness :
  method warn (setLevel (new "core") error) "t" "m" = []
  \/ method warn (setLevel (new "core") error) "t" "m"
     = method warn (setLevel (new "core") debug) "t" "m".
Proof.
  exact (X_raising_level_only_drops (new "core") debug error warn "t" "m"
           ltac:(simpl; lia)).
Defined.

Lemma truthy_append (a b : string) : truthy a = true -> truthy (a +:+ b) = true.
Proof. destruct a; [discriminate|reflexivity]. Qed.

Lemma append_assoc (a b c : string) : (a +:+ b) +:+ c = a +:+ (b +:+ c).
Proof.
  induction a as [|x a IH]; [reflexivity|].
  change (String x ((a +:+ b) +:+ c) = String x (a +:+ (b +:+ c))).
  f_equal. exact IH.
Qed.

(** X12.  Children compose: the child [b] of the child [a] of a logger is
    the child of that logger with prefix [a:b] (same level, same prefix),
    provided [a] is not empty. *)
Theorem X_child_of_child :
  forall (self : NodeLogger.t) (a b : string),
    truthy a = true ->
    child (child self a) b = child self (a +:+ ":" +:+ b).
Proof.
  intros self a b Ha. unfold child, setLevel, new. cbn [level prefix].
  destruct (truthy (prefix self)) eqn:Hp.
  - rewrite (truthy_append (prefix self) (":" +:+ a) Hp).
    rewrite (append_assoc (prefix self) (":" +:+ a) (":" +:+ b)). reflexivity.
  - rewrite Ha. reflexivity.
Qed.

(** X12 for the prefixes [task] and [tools] under [roo-core]. *)
Lemma X_child_of_child_witness :
  child (child (new "roo-core") "task") "tools"
  = child (new "roo-core") ("task" +:+ ":" +:+ "tools").
Proof. exact (X_child_of_child (new "roo-core") "task" "tools" eq_refl). Defined.

(** The law needs a non-empty first prefix. *)
Example child_of_empty_child :
  child (child (new "") "") "tools" <> child (new "") ("" +:+ ":" +:+ "tools").
Proof. discriminate. Qed.

Lemma length_append (a b : string) :
  String.length (a +:+ b) = String.length a + String.length b.
Proof.
  induction a as [|x a IH]; [reflexivity|].
  change (S (String.length (a +:+ b)) = S (String.length a) + String.length b).
  rewrite IH. reflexivity.
Qed.

(** X13.  The layout of a line is fixed: the timestamp, one space, the
    level in a column of five characters, one space, then the prefix in
    brackets with one space when the logger has one, then the message. *)
Theorem X_line_width :
  forall (self : NodeLogger.t) (timestamp : string) (lv : LogLevel) (message : string),
    String.length (formatMessage self timestamp lv message)
    = String.length timestamp + 7
      + (if truthy (prefix self) then String.length (prefix self) + 3 else 0)
      + String.length message.
Proof.
  intros self ts lv m. unfold formatMessage. rewrite !length_append.
  assert (Hcol : String.length (padEnd 5 (toUpperCase (level_literal lv))) = 5)
    by (destruct lv; reflexivity).
  rewrite Hcol. destruct (truthy (prefix self)); simpl; rewrite ?length_append; simpl; lia.
Qed.
End NodeLogger_more.

(** ** NodeSystemInfo *)

Section NodeSystemInfo_facts.
Import NodeSystemInfo.

Lemma substring_0_length (n : nat) (s : string) :
  n <= String.length s -> String.length (substring 0 n s) = n.
Proof.
  revert s. induction n as [|n IH]; intros s Hn.
  - destruct s; reflexivity.
  - destruct s as [|c s]; simpl in *; [lia|].
    rewrite IH; [reflexivity | lia].
Qed.

Lemma substring_0_Forall (P : ascii -> Prop) (n : nat) (s : string) :
  Forall P (list_ascii_of_string s) ->
  Forall P (list_ascii_of_string (substring 0 n s)).
Proof.
  revert s. induction n as [|n IH]; intros s Hs.
  - destruct s; constructor.
  - destruct s as [|c s]; simpl in *; [constructor|].
    inversion Hs; subst. constructor; auto.
Qed.

Lemma hex_digit_lower (d : Z) : is_lower_hex (Sha256.hex_digit d) = true.
Proof.
  unfold Sha256.hex_digit. generalize (Z.to_nat d). intros n.
  do 17 (destruct n as [|n]; [reflexivity|]). reflexivity.
Qed.

Lemma hex8_lower (w : Z) :
  Forall (fun c => is_lower_hex c = true) (Sha256.hex8 w).
Proof.
  unfold Sha256.hex8. apply Forall_map. apply Forall_forall.
  intros i _. apply hex_digit_lower.
Qed.

Lemma digest_hex_chars (s : string) :
  Forall (fun c => is_lower_hex c = true) (list_ascii_of_string (Sha256.digest_hex s)).
Proof.
  unfold Sha256.digest_hex. rewrite list_ascii_of_string_of_list_ascii.
  apply Forall_concat. apply Forall_map. apply Forall_forall.
  intros w _. apply hex8_lower.
Qed.

Lemma string_length_of_list (l : list ascii) :
  String.length (string_of_list_ascii l) = length l.
Proof. induction l; simpl; congruence. Qed.

Lemma digest_hex_length (s : string) : String.length (Sha256.digest_hex s) = 64.
Proof.
  unfold Sha256.digest_hex. rewrite string_length_of_list.
  generalize (Sha256.hash (Sha256.bytes_of_string s)). intros st. reflexivity.
Qed.

Lemma compute_machineId_length (h : Host) :
  String.length (compute_machineId h) = 32.
Proof.
  unfold compute_machineId. apply substring_0_length.
  rewrite digest_hex_length. lia.
Qed.

Lemma compute_machineId_truthy (h : Host) :
  NodeLogger.truthy (compute_machineId h) = true.
Proof.
  pose proof (compute_machineId_length h) as Hl.
  destruct (compute_machineId h); [discriminate Hl | reflexivity].
Qed.

Lemma reads_cached (hs : list Host) (m : string) :
  NodeLogger.truthy m = true ->
  Forall (fun v => v = m) (reads hs {| _machineId := Some m |}).
Proof.
  intros Hm. induction hs as [|h hs IH]; simpl; [constructor|].
  unfold machineId. simpl. rewrite Hm. constructor; [reflexivity | exact IH].
Qed.

(** C10.  On a new instance the first read of [machineId] under a host [h]
    gives a value [v] such that: every later read of that instance gives [v]
    again, however the host has changed in between; [v] has 32 characters,
    each one of 0-9 or a-f; and a new instance under any host with the same
    hostname, platform and architecture reads the same [v]. *)
Theorem C10_machineId_stable :
  forall (h : Host),
    let v := fst (machineId h new) in
    (forall hs, Forall (fun m => m = v) (reads (h :: hs) new))
    /\ String.length v = 32
    /\ Forall (fun c => is_lower_hex c = true) (list_ascii_of_string v)
    /\ (forall h',
          hostname h' = hostname h -> os_platform h' = os_platform h ->
          os_arch h' = os_arch h ->
          fst (machineId h' new) = v).
Proof.
  intros h v.
  assert (Hv : v = compute_machineId h) by reflexivity.
  rewrite Hv. clear v Hv.
  split; [|split; [|split]].
  - intros hs. change (reads (h :: hs) new)
      with (compute_machineId h
              :: reads hs {| _machineId := Some (compute_machineId h) |}).
    constructor; [reflexivity|].
    apply reads_cached, compute_machineId_truthy.
  - apply compute_machineId_length.
  - unfold compute_machineId. apply substring_0_Forall, digest_hex_chars.
  - intros h' Hn Hp Ha.
    change (fst (machineId h' new)) with (compute_machineId h').
    unfold compute_machineId. rewrite Hn, Hp, Ha. reflexivity.
Qed.

Example sha256_constants :
  nth 0 Sha256.K 0%Z = 0x428a2f98%Z /\ nth 63 Sha256.K 0%Z = 0xc67178f2%Z
  /\ length Sha256.K = 64
  /\ Sha256.ha Sha256.H0 = 0x6a09e667%Z /\ Sha256.hh Sha256.H0 = 0x5be0cd19%Z.
Proof. vm_compute. repeat split; reflexivity. Qed.

Example sha256_abc :
  Sha256.digest_hex "abc"
  = "ba7816bf8f01cfea414140de5dae2223b00361a396177a9cb410ff61f20015ad".
Proof. vm_compute. reflexivity. Qed.

Example sha256_empty :
  Sha256.digest_hex ""
  = "e3b0c44298fc1c149afbf4c8996fb92427ae41e4649b934ca495991b7852b855".
Proof. vm_compute. reflexivity. Qed.

Example sha256_two_blocks :
  Sha256.digest_hex "abcdbcdecdefdefgefghfghighijhijkijkljklmklmnlmnomnopnopq"
  = "248d6a61d20638b8e5c026930c3e6039a33ce45964ff2167f6ecedd419db06c1".
Proof. vm_compute. reflexivity. Qed.

Example machineId_host_a :
  reads [host_a; host_b] new
  = ["99e8b5c088c7be3ba4f3df776a8e57a4"; "99e8b5c088c7be3ba4f3df776a8e57a4"].
Proof. vm_compute. reflexivity. Qed.

End NodeSystemInfo_facts.

(** *** The other getters *)

Section NodeSystemInfo_more.
Import NodeSystemInfo.

Lemma or_else_truthy (v : option string) (d : string) :
  NodeLogger.truthy d = true -> NodeLogger.truthy (or_else v d) = true.
Proof.
  intros Hd. unfold or_else. destruct v as [s|]; [|exact Hd].
  destruct (NodeLogger.truthy s) eqn:E; [exact E | exact Hd].
Qed.

Lemma or_else_default (v : option string) (d : string) :
  v = None \/ v = Some "" -> or_else v d = d.
Proof. intros [-> | ->]; reflexivity. Qed.

(** X14.  [appName], [version], [uriScheme] and [language] are never
    empty; each is its default ("Roo-Code Server", "0.1.0", "roo-code",
    "en") when its environment variable is unset and also when it is set
    to the empty string. *)
Theorem X_getters_never_empty :
  forall (h : Host),
    (NodeLogger.truthy (appName h) = true
     /\ NodeLogger.truthy (version h) = true
     /\ NodeLogger.truthy (uriScheme h) = true
     /\ NodeLogger.truthy (language h) = true)
    /\ (getEnvVar h "APP_NAME" = None \/ getEnvVar h "APP_NAME" = Some ""
        -> appName h = "Roo-Code Server")
    /\ (getEnvVar h "APP_VERSION" = None \/ getEnvVar h "APP_VERSION" = Some ""
        -> version h = "0.1.0")
    /\ (getEnvVar h "URI_SCHEME" = None \/ getEnvVar h "URI_SCHEME" = Some ""
        -> uriScheme h = "roo-code")
    /\ (getEnvVar h "LANG" = None \/ getEnvVar h "LANG" = Some ""
        -> language h = "en").
Proof.
  intros h. repeat split; try (apply or_else_truthy; reflexivity);
    try (apply or_else_default).
  unfold language. intros [-> | ->]; reflexivity.
Qed.

Lemma before_dot_no_dot (s : string) : has_char "." (before_dot s) = false.
Proof.
  induction s as [|c s IH]; [reflexivity|]. simpl.
  destruct (Ascii.eqb c ".") eqn:E; [reflexivity|]. simpl. rewrite E. exact IH.
Qed.

Lemma replace_underscore_no_dot (s : string) :
  has_char "." s = false -> has_char "." (replace_underscore s) = false.
Proof.
  induction s as [|c s IH]; [reflexivity|]. simpl. intros H.
  apply orb_false_iff in H as [Hc Hs].
  destruct (Ascii.eqb c "_") eqn:E; simpl.
  - exact Hs.
  - rewrite Hc. auto.
Qed.

Lemma before_dot_append (a rest : string) :
  has_char "." a = false -> before_dot (a +:+ "." +:+ rest) = a.
Proof.
  induction a as [|c a IH]; [reflexivity|]. simpl. intros H.
  apply orb_false_iff in H as [Hc Hs].
  change (before_dot (String c (a +:+ "." +:+ rest)) = String c a).
  simpl. rewrite Hc, (IH Hs). reflexivity.
Qed.

Lemma replace_underscore_append (a b : string) :
  has_char "_" a = false -> replace_underscore (a +:+ "_" +:+ b) = a +:+ "-" +:+ b.
Proof.
  induction a as [|c a IH]; [reflexivity|]. simpl. intros H.
  apply orb_false_iff in H as [Hc Hs].
  change (replace_underscore (String c (a +:+ "_" +:+ b)) = String c (a +:+ "-" +:+ b)).
  simpl. rewrite Hc, (IH Hs). reflexivity.
Qed.

Lemma has_char_append (c : ascii) (a b : string) :
  has_char c (a +:+ b) = has_char c a || has_char c b.
Proof.
  induction a as [|x a IH]; [reflexivity|].
  change (has_char c (String x (a +:+ b)) = has_char c (String x a) || has_char c b).
  simpl. rewrite IH. by rewrite orb_assoc.
Qed.

(** X15.  From a LANG of the usual shape [ll_CC.encoding], [language] is
    [ll-CC]: the encoding is cut off and the underscore becomes a dash. *)
Theorem X_language_tag :
  forall (h : Host) (a b rest : string),
    getEnvVar h "LANG" = Some (a +:+ "_" +:+ b +:+ "." +:+ rest) ->
    has_char "." a = false -> has_char "_" a = false -> has_char "." b = false ->
    language h = a +:+ "-" +:+ b.
Proof.
  intros h a b rest HL Hda Hua Hdb. unfold language. rewrite HL. simpl.
  assert (Hsplit : a +:+ "_" +:+ b +:+ "." +:+ rest = (a +:+ "_" +:+ b) +:+ "." +:+ rest).
  { rewrite (append_assoc a ("_" +:+ b) ("." +:+ rest)). reflexivity. }
  rewrite Hsplit, before_dot_append.
  - rewrite replace_underscore_append by exact Hua.
    destruct a; reflexivity.
  - rewrite has_char_append, Hda. simpl. exact Hdb.
Qed.

(** X15 for LANG=pt_BR.UTF-8. *)
Lemma X_language_tag_witness :
  language (mkHost "build-01" "linux" "x64" "/home/roo" "/tmp" "/srv/app"
              [("LANG", "pt_BR.UTF-8")])
  = "pt" +:+ "-" +:+ "BR".
Proof.
  exact (X_language_tag
           (mkHost "build-01" "linux" "x64" "/home/roo" "/tmp" "/srv/app"
              [("LANG", "pt_BR.UTF-8")])
           "pt" "BR" "UTF-8" eq_refl eq_refl eq_refl eq_refl).
Defined.

(** X16.  [language] never contains a dot, whatever LANG holds. *)
Theorem X_language_has_no_dot :
  forall (h : Host), has_char "." (language h) = false.
Proof.
  intros h. unfold language, or_else.
  destruct (getEnvVar h "LANG") as [l|]; [|reflexivity]. simpl.
  destruct (NodeLogger.truthy _); [|reflexivity].
  apply replace_underscore_no_dot, before_dot_no_dot.
Qed.

End NodeSystemInfo_more.

(** ** DependencyContainer *)

Section Container_facts.
Import DependencyContainer.

(** X17.  The constructor's last statement writes its line exactly when
    the container's logger lets [info] through.  With no logger supplied
    the line is written, under the prefix [roo-core], and the child
    loggers of the container are at level [info] with prefix
    [roo-core:<prefix>]. *)
Theorem X_container_logging :
  forall (Impl : Type) (options : Options Impl) (cwd timestamp p : string),
    let c := fst (new options cwd timestamp) in
    let out := snd (new options cwd timestamp) in
    (out <> [] <->
       (NodeLogger.levels (NodeLogger.level (the_logger c))
        <= NodeLogger.levels NodeLogger.info)%Z)
    /\ (logger options = None ->
        out = [(NodeLogger.console_info,
                timestamp +:+ " INFO  [roo-core] Dependency container initialized")]
        /\ createChildLogger c p
           = NodeLogger.mk NodeLogger.info ("roo-core:" +:+ p)).
Proof.
  intros Impl options cwd ts p c out. split.
  - change (NodeLogger.method NodeLogger.info (the_logger c) ts
              "Dependency container initialized" <> []
            <-> (NodeLogger.levels (NodeLogger.level (the_logger c))
                 <= NodeLogger.levels NodeLogger.info)%Z).
    rewrite method_written. apply shouldLog_iff.
  - intros Hl. unfold out, c, new, createChildLogger. rewrite Hl. split; reflexivity.
Qed.

(** X18.  When no workspace is supplied, the container builds one on its
    own file system and logger (the supplied ones, if any), rooted at
    [workspacePath]; at the current directory when [workspacePath] is
    absent and also when it is the empty string. *)
Theorem X_container_workspace :
  forall (Impl : Type) (options : Options Impl) (cwd timestamp : string),
    workspace options = None ->
    let c := fst (new options cwd timestamp) in
    (workspacePath options = None \/ workspacePath options = Some "" ->
     the_workspace c = NodeWorkspace_new cwd (the_fileSystem c) (the_logger c))
    /\ (forall path,
        workspacePath options = Some path -> NodeLogger.truthy path = true ->
        the_workspace c = NodeWorkspace_new path (the_fileSystem c) (the_logger c)).
Proof.
  intros Impl options cwd ts Hw c. unfold c, new. rewrite Hw. simpl. split.
  - intros [-> | ->]; reflexivity.
  - intros path -> Hp. simpl. rewrite Hp. reflexivity.
Qed.

(** X18 for an empty [workspacePath]. *)
Lemma X_container_workspace_witness :
  the_workspace
    (fst (new (Impl := unit)
            (mkOptions (Some "") None None None None None None None None)
            "/srv/app" "2025-01-01T00:00:00.000Z"))
  = NodeWorkspace_new "/srv/app" NodeFileSystem_new (NodeLogger.new "roo-core").
Proof.
  exact (proj1 (X_container_workspace unit
                  (mkOptions (Some "") None None None None None None None None)
                  "/srv/app" "2025-01-01T00:00:00.000Z" eq_refl)
           (or_intror eq_refl)).
Defined.

End Container_facts.

(** ** Task and TaskManager *)

Section Engine_facts.
Import Engine.

(** *** Lists that grow at the end *)

Lemma lookup_snoc_Some {A : Type} (l : list A) (x y : A) (i : nat) :
  (l ++ [x]) !! i = Some y -> l !! i = Some y \/ (i = length l /\ y = x).
Proof.
  intros H. apply lookup_app_Some in H as [H|[Hle H]]; [by left|right].
  destruct (i - length l) as [|n] eqn:E; simpl in H.
  - injection H as <-. split; [lia|reflexivity].
  - by rewrite lookup_nil in H.
Qed.

Ltac snoc H := apply lookup_snoc_Some in H as [H|[? H]].
Ltac updated H := apply list_lookup_insert_Some in H as [(? & ? & ?)|[? H]].

(** *** The single methods *)

Lemma Task_cancel_status (now : number) (t : Task) :
  status (fst (Task_cancel now t)) <> running.
Proof. unfold Task_cancel. destruct (status t) eqn:E; simpl; congruence. Qed.

Lemma Task_cancel_flag (now : number) (t : Task) :
  status t = running \/ cancelled_flag t = true ->
  status (fst (Task_cancel now t)) = running
  \/ cancelled_flag (fst (Task_cancel now t)) = true.
Proof. unfold Task_cancel. destruct (status t) eqn:E; simpl; intuition congruence. Qed.

Lemma Task_cancel_transition (now : number) (t : Task) :
  status (fst (Task_cancel now t)) = status t
  \/ transition (status t) (status (fst (Task_cancel now t))).
Proof.
  unfold Task_cancel. destruct (status t) eqn:E; simpl; rewrite ?E; auto using transition.
Qed.

(** [cancel] on a completed or failed Task changes nothing and emits nothing. *)
Lemma Task_cancel_settled (now : number) (t : Task) :
  status t = completed \/ status t = error -> Task_cancel now t = (t, []).
Proof. unfold Task_cancel. intros [-> | ->]; reflexivity. Qed.

(** [execute] refuses every Task that is not pending, before it writes. *)
Lemma execute_guard_terminal (t : Task) :
  is_terminal (status t) = true -> execute_guard t = Some (not_pending t).
Proof. unfold execute_guard. destruct (status t); simpl; intros; congruence. Qed.

Lemma is_active_running (s : TaskStatus) : is_active s = true -> s = running.
Proof. destruct s; simpl; intros H; try discriminate; reflexivity. Qed.

Lemma status_literal_values (s : TaskStatus) : In (status_literal s) status_values.
Proof. destruct s; simpl; tauto. Qed.

Lemma provider_calls_app (tr1 tr2 : list Event) :
  provider_calls (tr1 ++ tr2) = provider_calls tr1 + provider_calls tr2.
Proof.
  induction tr1 as [|e tr1 IH]; simpl; [reflexivity|].
  destruct e; simpl; rewrite IH; reflexivity.
Qed.

(** *** The invariant *)

Lemma Inv_init : Inv init.
Proof.
  split; simpl; intros *; try (rewrite ?lookup_empty, ?lookup_nil; discriminate).
Qed.

Lemma no_exec_when_idle (w : World) :
  Inv w -> activeTask w = None ->
  forall i c, calls w !! i = Some c -> exec_ref c = None.
Proof.
  intros HI Ha i c Hc. destruct (exec_ref c) as [r|] eqn:E; [|reflexivity].
  pose proof (inv_exec_active w HI i c r Hc E). congruence.
Qed.

Lemma none_running_when_idle (w : World) :
  Inv w -> activeTask w = None ->
  forall r t, heap w !! r = Some t -> status t <> running.
Proof.
  intros HI Ha r t Ht Hs. pose proof (inv_running w HI r t Ht Hs). congruence.
Qed.

Lemma Inv_createTask input config uuid now (w : World) :
  Inv w -> Inv (snd (createTask input config uuid now w)).
Proof.
  intros HI. split; simpl.
  - intros k r. rewrite length_app. simpl.
    destruct (decide (uuid = k)) as [->|Hne].
    + rewrite lookup_insert_eq. intros [= <-]. lia.
    + rewrite lookup_insert_ne by done. intros H.
      pose proof (inv_tasks w HI k r H). lia.
  - intros r t Hl Hs. snoc Hl.
    + eauto using inv_running.
    + subst t. discriminate Hs.
  - eauto using inv_exec_active.
  - eauto using inv_exec_unique.
  - intros i r o t Hc Hl. snoc Hl.
    + eauto using inv_settled.
    + subst t. discriminate.
  - intros i r Hc. destruct (inv_provider w HI i r Hc) as (t & Hl & Hs).
    exists t. split; [|done]. by apply lookup_app_l_Some.
Qed.

(** A call appended to a table without running calls is the only one. *)
Lemma snoc_exec_unique (cs : list Call) (c : Call) :
  (forall i ci, cs !! i = Some ci -> exec_ref ci = None) ->
  forall i j ci cj,
    (cs ++ [c]) !! i = Some ci -> (cs ++ [c]) !! j = Some cj ->
    is_Some (exec_ref ci) -> is_Some (exec_ref cj) -> i = j.
Proof.
  intros Hidle i j ci cj Hi Hj [ri Ei] [rj Ej].
  snoc Hi; [rewrite (Hidle i ci Hi) in Ei; discriminate|].
  snoc Hj; [rewrite (Hidle j cj Hj) in Ej; discriminate|].
  congruence.
Qed.

Lemma Inv_executeTask taskId now (w : World) :
  Inv w -> Inv (snd (executeTask taskId now w)).
Proof.
  intros HI. unfold executeTask.
  destruct (tasks w !! taskId) as [r|] eqn:Hk; [|exact HI].
  destruct (activeTask w) as [a|] eqn:Ha; [exact HI|].
  pose proof (no_exec_when_idle w HI Ha) as Hidle.
  pose proof (none_running_when_idle w HI Ha) as Hnone.
  simpl. destruct (heap w !! r) as [t|] eqn:Ht; simpl.
  2:{ split; simpl.
      - eauto using inv_tasks.
      - intros r' t' Hl Hs. exfalso. eapply Hnone; eauto.
      - intros i c r' Hc He. rewrite (Hidle i c Hc) in He. discriminate.
      - eauto using inv_exec_unique.
      - eauto using inv_settled.
      - eauto using inv_provider. }
  unfold execute_guard. destruct (status_eqb (status t) pending) eqn:Hp; simpl.
  - (* the Task starts *)
    split; simpl.
    + intros k r'. rewrite length_insert. eauto using inv_tasks.
    + intros r' t' Hl Hs. updated Hl; [congruence|].
      exfalso. eapply Hnone; eauto.
    + intros i c r' Hc He. snoc Hc.
      * rewrite (Hidle i c Hc) in He. discriminate.
      * subst c. simpl in He. congruence.
    + by apply snoc_exec_unique.
    + intros i r' o t' Hc Hl. snoc Hc; [|discriminate].
      pose proof (Hidle i _ Hc). discriminate.
    + intros i r' Hc. snoc Hc.
      * pose proof (Hidle i _ Hc). discriminate.
      * injection Hc as ->. exists (execute_enter now t). split; [|by left].
        apply list_lookup_insert_eq. by eapply lookup_lt_Some.
  - (* the guard of execute throws *)
    split; simpl.
    + eauto using inv_tasks.
    + intros r' t' Hl Hs. exfalso. eapply Hnone; eauto.
    + intros i c r' Hc He. snoc Hc.
      * rewrite (Hidle i c Hc) in He. discriminate.
      * subst c. simpl in He. congruence.
    + by apply snoc_exec_unique.
    + intros i r' o t' Hc Hl. eapply Hnone; eauto.
    + intros i r' Hc. snoc Hc; [|discriminate].
      pose proof (Hidle i _ Hc). discriminate.
Qed.

Lemma insert_keeps_exec (cs : list Call) (slot : nat) (c c' : Call) (i : nat)
    (ci : Call) :
  cs !! slot = Some c -> is_Some (exec_ref c) ->
  <[slot := c']> cs !! i = Some ci -> is_Some (exec_ref ci) ->
  exists ci', cs !! i = Some ci' /\ is_Some (exec_ref ci').
Proof.
  intros Hs He Hi Hci. updated Hi; [subst i|]; eauto.
Qed.

(** The world after the provider has settled, whichever way. *)
Lemma provider_settles_shape slot o now_logic now (w : World) (r : ref) (t : Task) :
  calls w !! slot = Some (AwaitingProvider r) ->
  heap w !! r = Some t ->
  exists t' o' es,
    status t' <> running
    /\ (status t' = completed \/ status t' = error)
    /\ provider_settles slot o now_logic now w
       = {| heap := <[r := t']> (heap w); tasks := tasks w;
            activeTask := activeTask w;
            calls := <[slot := AwaitingExecute r o']> (calls w);
            trace := trace w ++ es |}.
Proof.
  intros Hslot Ht. unfold provider_settles. rewrite Hslot, Ht.
  destruct o as [e|response]; eexists _, _, _;
    (split; [|split; [|reflexivity]]); simpl; auto; discriminate.
Qed.

Lemma Inv_provider_settles slot o now_logic now (w : World) :
  Inv w -> Inv (provider_settles slot o now_logic now w).
Proof.
  intros HI.
  destruct (calls w !! slot) as [c|] eqn:Hslot;
    [|unfold provider_settles; rewrite Hslot; exact HI].
  destruct c as [r| | |]; try (unfold provider_settles; rewrite Hslot; exact HI).
  destruct (heap w !! r) as [t|] eqn:Ht;
    [|unfold provider_settles; rewrite Hslot, Ht; exact HI].
  destruct (provider_settles_shape slot o now_logic now w r t Hslot Ht)
    as (t' & o' & es & Hst & _ & ->).
  assert (Hex : is_Some (exec_ref (AwaitingProvider r))) by (simpl; eauto).
  assert (Hone : forall i ci, calls w !! i = Some ci -> is_Some (exec_ref ci) -> i = slot)
    by (intros i ci Hi Hci; eapply (inv_exec_unique w HI); eauto).
  split; simpl.
  - intros k r'. rewrite length_insert. eauto using inv_tasks.
  - intros r' t'' Hl Hs. updated Hl; [congruence|]. eauto using inv_running.
  - intros i c r' Hc He. updated Hc.
    + subst c. simpl in He. injection He as <-.
      eapply (inv_exec_active w HI slot); eauto.
    + eauto using inv_exec_active.
  - intros i j ci cj Hi Hj Hci Hcj.
    destruct (insert_keeps_exec _ _ _ _ _ _ Hslot Hex Hi Hci) as (ci' & Hi' & Hci').
    destruct (insert_keeps_exec _ _ _ _ _ _ Hslot Hex Hj Hcj) as (cj' & Hj' & Hcj').
    rewrite (Hone i ci' Hi' Hci'), (Hone j cj' Hj' Hcj'). reflexivity.
  - intros i r' o'' t'' Hc Hl. updated Hc.
    + assert (r' = r) as -> by congruence.
      updated Hl; congruence.
    + exfalso. assert (i = slot) by (eapply Hone; eauto). congruence.
  - intros i r' Hc. updated Hc; [discriminate|].
    exfalso. assert (i = slot) by (eapply Hone; eauto). congruence.
Qed.

Lemma Inv_cancelTask taskId now (w : World) :
  Inv w -> Inv (snd (cancelTask taskId now w)).
Proof.
  intros HI. unfold cancelTask.
  destruct (tasks w !! taskId) as [r|] eqn:Hk; [|exact HI].
  destruct (heap w !! r) as [t|] eqn:Ht; [|exact HI].
  pose proof (Task_cancel_status now t) as Hst.
  pose proof (Task_cancel_flag now t) as Hfl.
  destruct (Task_cancel now t) as [t' es]. simpl in Hst, Hfl. simpl.
  split; simpl.
  - intros k r'. rewrite length_insert. eauto using inv_tasks.
  - intros r' t'' Hl Hs. updated Hl; [congruence|]. eauto using inv_running.
  - intros i c r' Hc He. snoc Hc; [|subst c; discriminate].
    eauto using inv_exec_active.
  - intros i j ci cj Hi Hj [ri Ei] [rj Ej].
    snoc Hi; [|subst ci; discriminate].
    snoc Hj; [|subst cj; discriminate].
    eapply (inv_exec_unique w HI); eauto.
  - intros i r' o t'' Hc Hl. snoc Hc; [|discriminate].
    updated Hl; [congruence|]. eauto using inv_settled.
  - intros i r' Hc. snoc Hc; [|discriminate].
    destruct (inv_provider w HI i r' Hc) as (t0 & Hl & Hs).
    destruct (decide (r = r')) as [<-|Hne].
    + exists t'. split.
      * apply list_lookup_insert_eq. by eapply lookup_lt_Some.
      * apply Hfl. congruence.
    + exists t0. split; [|done]. by rewrite list_lookup_insert_ne.
Qed.

Lemma Inv_resume slot (w : World) : Inv w -> Inv (resume slot w).
Proof.
  intros HI. unfold resume.
  destruct (calls w !! slot) as [[r|r o|r|s]|] eqn:Hslot; try exact HI.
  - (* executeTask ends: activeTask is cleared *)
    assert (Hex : is_Some (exec_ref (AwaitingExecute r o))) by (simpl; eauto).
    assert (Hact : activeTask w = Some r)
      by (eapply (inv_exec_active w HI slot); eauto).
    assert (Hone : forall i ci, calls w !! i = Some ci -> is_Some (exec_ref ci) -> i = slot)
      by (intros i ci Hi Hci; eapply (inv_exec_unique w HI); eauto).
    assert (Hgone : forall c i ci, <[slot := Done c]> (calls w) !! i = Some ci ->
                                   exec_ref ci = None).
    { intros c i ci Hi. updated Hi; [by subst ci|].
      destruct (exec_ref ci) eqn:E; [|reflexivity].
      exfalso. assert (i = slot) by (eapply Hone; eauto). congruence. }
    assert (Hquiet : forall r' t, heap w !! r' = Some t -> status t <> running).
    { intros r' t Hl Hs. pose proof (inv_running w HI r' t Hl Hs) as Ha.
      assert (r' = r) as -> by congruence.
      eapply (inv_settled w HI); eauto. }
    destruct o as [e|res]; split; simpl;
      try (eauto using inv_tasks; fail);
      try (intros r' t Hl Hs; exfalso; eapply Hquiet; eauto; fail);
      try (intros i c r' Hc He; rewrite (Hgone _ _ _ Hc) in He; discriminate);
      try (intros i j ci cj Hi Hj [ri Ei] _; rewrite (Hgone _ _ _ Hi) in Ei; discriminate);
      try (intros i r' o t Hc Hl; eapply Hquiet; eauto; fail);
      try (intros i r' Hc; pose proof (Hgone _ _ _ Hc); discriminate).
  - (* cancelTask ends *)
    split; simpl.
    + eauto using inv_tasks.
    + eauto using inv_running.
    + intros i c r' Hc He. updated Hc; [subst c; discriminate|].
      eauto using inv_exec_active.
    + intros i j ci cj Hi Hj [ri Ei] [rj Ej].
      updated Hi; [subst ci; discriminate|].
      updated Hj; [subst cj; discriminate|].
      eapply (inv_exec_unique w HI); eauto.
    + intros i r' o t Hc Hl. updated Hc; [discriminate|]. eauto using inv_settled.
    + intros i r' Hc. updated Hc; [discriminate|]. eauto using inv_provider.
Qed.

Lemma Inv_step (l : Label) (w : World) : Inv w -> Inv (step l w).
Proof.
  intros HI. destruct l; simpl.
  - by apply Inv_createTask.
  - by apply Inv_executeTask.
  - by apply Inv_cancelTask.
  - by apply Inv_provider_settles.
  - by apply Inv_resume.
Qed.

Lemma reachable_Inv (w : World) : reachable w -> Inv w.
Proof. induction 1; auto using Inv_init, Inv_step. Qed.

Lemma reachable_run (ls : list Label) (w : World) :
  reachable w -> reachable (run ls w).
Proof.
  revert w. induction ls as [|l ls IH]; intros w Hw; simpl; [assumption|].
  apply IH. by constructor.
Qed.

(** *** One active Task *)

(** C1.  In every world a TaskManager can reach, by any sequence of
    createTask, executeTask and cancelTask calls and of the continuations
    they leave behind, at most one Task is in an active status ([running];
    no other status of [TaskStatus] is active).  And while some Task is
    active, [executeTask] on any registered id is rejected at once with the
    error "Another task is already running" and returns the world as it
    was: no Task, and nothing of the manager, has changed. *)
Theorem C1_single_active_task :
  forall w : World, reachable w ->
    (forall r1 r2 t1 t2,
        heap w !! r1 = Some t1 -> heap w !! r2 = Some t2 ->
        is_active (status t1) = true -> is_active (status t2) = true ->
        r1 = r2)
    /\ (forall r1 t1 taskId now,
        heap w !! r1 = Some t1 -> is_active (status t1) = true ->
        is_Some (tasks w !! taskId) ->
        executeTask taskId now w = (Now (Rejected AlreadyRunning), w)).
Proof.
  intros w Hw. apply reachable_Inv in Hw. split.
  - intros r1 r2 t1 t2 H1 H2 A1 A2.
    apply is_active_running in A1, A2.
    pose proof (inv_running w Hw r1 t1 H1 A1).
    pose proof (inv_running w Hw r2 t2 H2 A2). congruence.
  - intros r1 t1 taskId now H1 A1 [r Hr].
    apply is_active_running in A1.
    pose proof (inv_running w Hw r1 t1 H1 A1) as Ha.
    unfold executeTask. rewrite Hr, Ha. reflexivity.
Qed.

Lemma C1_single_active_task_witness :
  let w := run [CreateTask "list files" defaultConfig "id-1" 1;
                CreateTask "fix bug" defaultConfig "id-2" 2;
                ExecuteTask "id-1" 3] init in
  executeTask "id-2" 4 w = (Now (Rejected AlreadyRunning), w).
Proof.
  intros w.
  refine (proj2 (C1_single_active_task w (reachable_run _ _ reachable_init))
            0 (execute_enter 3 (Task_new "id-1" "list files" defaultConfig 1))
            "id-2" 4%Z _ _ _).
  - reflexivity.
  - reflexivity.
  - exists 1. vm_compute. reflexivity.
Defined.

(** *** createTask *)

Lemma Idle_step (b : bool) (r : ref) (l : Label) (w : World) :
  is_execute l = false -> (is_cancel l = true -> b = true) ->
  Idle b r w -> Idle b r (step l w).
Proof.
  intros Hex Hcan (t & Ht & Hs & Hst & Hc). destruct l; simpl in *; try discriminate.
  - (* createTask *)
    exists t. split; [by apply lookup_app_l_Some|]. repeat split; auto.
  - (* cancelTask *)
    unfold cancelTask. destruct (tasks w !! taskId) as [r0|] eqn:Hk; [|by exists t].
    destruct (heap w !! r0) as [t0|] eqn:Ht0; [|by exists t].
    destruct (Task_cancel now t0) as [t0' es] eqn:Hcancel. simpl.
    assert (Hcalls : forall i, (calls w ++ [AwaitingCancel r0]) !! i
                               <> Some (AwaitingProvider r)).
    { intros i Hi. snoc Hi; [by eapply Hc|discriminate]. }
    destruct (decide (r0 = r)) as [->|Hne].
    + assert (t0 = t) as -> by congruence.
      exists t0'. split; [apply list_lookup_insert_eq; by eapply lookup_lt_Some|].
      unfold Task_cancel in Hcancel.
      destruct Hst as [Hp|[_ Hp]]; rewrite Hp in Hcancel;
        injection Hcancel as <- <-; simpl; repeat split; auto.
    + exists t. simpl. split; [by rewrite list_lookup_insert_ne|]. repeat split; auto.
  - (* the provider settles: never for [r] *)
    unfold provider_settles.
    destruct (calls w !! slot) as [[r0| | |]|] eqn:Hslot; try by exists t.
    destruct (heap w !! r0) as [t0|] eqn:Ht0; [|by exists t].
    assert (r0 <> r) by (intros ->; by eapply Hc).
    destruct o; exists t; simpl;
      (split; [by rewrite list_lookup_insert_ne|]; repeat split; auto;
       intros i Hi; updated Hi; [discriminate | by eapply Hc]).
  - (* a continuation *)
    unfold resume.
    destruct (calls w !! slot) as [[r0|r0 [e|res]|r0|s]|] eqn:Hslot; try by exists t.
    all: exists t; simpl; repeat split; auto;
      intros i Hi; updated Hi; [discriminate | by eapply Hc].
Qed.

Lemma Idle_run (b : bool) (r : ref) (ls : list Label) (w : World) :
  forallb (fun l => negb (is_execute l)) ls = true ->
  (b = false -> forallb (fun l => negb (is_cancel l)) ls = true) ->
  Idle b r w -> Idle b r (run ls w).
Proof.
  revert w. induction ls as [|l ls IH]; intros w He Hc Hi; simpl in *; [assumption|].
  apply andb_true_iff in He as [He1 He2]. apply negb_true_iff in He1.
  apply IH; auto.
  - intros Hb. specialize (Hc Hb). by apply andb_true_iff in Hc as [_ ?].
  - apply Idle_step; auto. intros Hcl. destruct b; [reflexivity|].
    specialize (Hc eq_refl). apply andb_true_iff in Hc as [Hc _].
    rewrite Hcl in Hc. discriminate.
Qed.

Lemma Idle_created (b : bool) input config uuid now (w : World) :
  reachable w ->
  Idle b (fst (createTask input config uuid now w))
         (snd (createTask input config uuid now w)).
Proof.
  intros Hw. apply reachable_Inv in Hw. simpl.
  exists (Task_new uuid input config now). repeat split; auto.
  - by apply list_lookup_middle.
  - intros i Hi. destruct (inv_provider w Hw i _ Hi) as (t & Ht & _).
    apply lookup_lt_Some in Ht. lia.
Qed.

(** C7.  [createTask(input, config)] allocates a new Task object holding
    the id, the input and the config, with status [pending] and [startedAt]
    unset; stores it in the manager's map under its id; emits [taskCreated]
    with it, and nothing else; leaves [activeTask], every suspended call and
    every existing Task as they were.  On a reachable manager the Task then
    stays unstarted ([startedAt] unset, never [running]) through every run
    that holds no executeTask call, and stays [pending] when the run holds
    no cancelTask call either. *)
Theorem C7_createTask_pending :
  forall (input : string) (config : TaskConfig) (uuid : string) (now : number)
         (w : World),
    let r := fst (createTask input config uuid now w) in
    let w' := snd (createTask input config uuid now w) in
    let task := Task_new uuid input config now in
    (heap w' !! r = Some task /\ heap w !! r = None
     /\ id task = uuid /\ Engine.input task = input /\ Engine.config task = config
     /\ status task = pending /\ startedAt task = None)
    /\ (tasks w' !! uuid = Some r /\ getTask uuid w' = Some task)
    /\ trace w' = trace w ++ [taskCreated r]
    /\ (activeTask w' = activeTask w /\ calls w' = calls w
        /\ forall r' t, heap w !! r' = Some t -> heap w' !! r' = Some t)
    /\ (reachable w ->
        forall ls,
          forallb (fun l => negb (is_execute l)) ls = true ->
          exists t,
            heap (run ls w') !! r = Some t
            /\ startedAt t = None /\ status t <> running
            /\ (forallb (fun l => negb (is_cancel l)) ls = true -> status t = pending)).
Proof.
  intros input config uuid now w r w' task.
  assert (Hr : heap w' !! r = Some task) by (by apply list_lookup_middle).
  split; [|split; [|split; [|split]]].
  - repeat split; auto. apply lookup_ge_None. unfold r. simpl. lia.
  - assert (Hk : tasks w' !! uuid = Some r) by apply lookup_insert_eq.
    split; [exact Hk|]. unfold getTask. rewrite Hk. exact Hr.
  - reflexivity.
  - repeat split. intros r' t Ht. by apply lookup_app_l_Some.
  - intros Hw ls Hls.
    destruct (forallb (fun l => negb (is_cancel l)) ls) eqn:Hcan.
    + destruct (Idle_run false r ls w' Hls (fun _ => Hcan)
                  (Idle_created false input config uuid now w Hw))
        as (t & Ht & Hs & [Hp|[? _]] & _); [|discriminate].
      exists t. repeat split; auto. congruence.
    + assert (Hb : true = false -> forallb (fun l => negb (is_cancel l)) ls = true)
        by discriminate.
      destruct (Idle_run true r ls w' Hls Hb
                  (Idle_created true input config uuid now w Hw))
        as (t & Ht & Hs & Hst & _).
      exists t. repeat split; auto; [|discriminate].
      destruct Hst as [Hp|[_ Hp]]; congruence.
Qed.

Example createTask_then_idle :
  let w := run [CreateTask "list files" defaultConfig "id-1" 1;
                CreateTask "fix bug" defaultConfig "id-2" 2] init in
  (status <$> getTask "id-1" w) = Some pending
  /\ (startedAt <$> getTask "id-1" w) = Some None
  /\ activeTask w = None
  /\ trace w = [taskCreated 0; taskCreated 1].
Proof. vm_compute. repeat split; reflexivity. Qed.

(** *** The status of a Task *)

(** C8, as the specification states it, fails: a Task whose provider call
    is rejected ends with the status literal "error", which is none of the
    six values pending, running, awaiting_approval, completed, failed,
    cancelled. *)
Lemma C8_six_values_counterexample :
  ~ (forall (ls : list Label) (r : ref) (t : Task),
        heap (run ls init) !! r = Some t ->
        In (status_literal (status t)) spec_status_values).
Proof.
  intros H.
  specialize (H [CreateTask "list files" defaultConfig "id-1" 1;
                 ExecuteTask "id-1" 2;
                 ProviderSettles 0 (inl (mkError "provider unreachable")) 3 4]
                0
                (execute_catch (mkError "provider unreachable") 4
                   (execute_enter 2 (Task_new "id-1" "list files" defaultConfig 1)))
                eq_refl).
  simpl in H. intuition discriminate.
Qed.

(** C8, amended.  The status of a Task is always one of the five values
    pending, running, completed, error, cancelled; and in every step of a
    reachable manager, a Task that has not been cancelled before either
    keeps its status or moves along pending -> running,
    running -> completed, running -> error, pending -> cancelled or
    running -> cancelled. *)
Theorem C8_status_transitions :
  forall (w : World) (l : Label) (r : ref) (t t' : Task),
    reachable w ->
    heap w !! r = Some t ->
    heap (step l w) !! r = Some t' ->
    In (status_literal (status t')) status_values
    /\ (cancelled_flag t = false ->
        status t' = status t \/ transition (status t) (status t')).
Proof.
  intros w l r t t' Hw Ht Ht'. split; [apply status_literal_values|].
  intros Hflag. apply reachable_Inv in Hw.
  destruct l; simpl in Ht'.
  - (* createTask *)
    left. erewrite lookup_app_l_Some in Ht' by eassumption. congruence.
  - (* executeTask *)
    unfold executeTask in Ht'.
    destruct (tasks w !! taskId) as [r0|]; [|left; simpl in *; congruence].
    destruct (activeTask w); [left; simpl in *; congruence|].
    simpl in Ht'. destruct (heap w !! r0) as [t0|] eqn:Ht0;
      [|left; simpl in *; congruence].
    unfold execute_guard in Ht'.
    destruct (status_eqb (status t0) pending) eqn:Hp; simpl in Ht';
      [|left; simpl in *; congruence].
    apply list_lookup_insert_Some in Ht' as [(-> & <- & _)|[_ Ht']];
      [|left; simpl in *; congruence].
    assert (t0 = t) as -> by congruence.
    right. destruct (status t); try discriminate. simpl. constructor.
  - (* cancelTask *)
    unfold cancelTask in Ht'.
    destruct (tasks w !! taskId) as [r0|]; [|left; simpl in *; congruence].
    destruct (heap w !! r0) as [t0|] eqn:Ht0; [|left; simpl in *; congruence].
    pose proof (Task_cancel_transition now t0) as Htr.
    destruct (Task_cancel now t0) as [t0' es]. simpl in Ht', Htr.
    apply list_lookup_insert_Some in Ht' as [(-> & <- & _)|[_ Ht']];
      [|left; congruence].
    assert (t0 = t) as -> by congruence. exact Htr.
  - (* the provider settles *)
    destruct (calls w !! slot) as [c|] eqn:Hslot;
      [|unfold provider_settles in Ht'; rewrite Hslot in Ht'; left; congruence].
    destruct c as [r0| | |];
      try (unfold provider_settles in Ht'; rewrite Hslot in Ht'; left; congruence).
    destruct (inv_provider w Hw slot r0 Hslot) as (t0 & Ht0 & Hst).
    destruct (provider_settles_shape slot o now_logic now w r0 t0 Hslot Ht0)
      as (t1 & o' & es & _ & Hend & Heq).
    rewrite Heq in Ht'. simpl in Ht'.
    apply list_lookup_insert_Some in Ht' as [(-> & <- & _)|[_ Ht']];
      [|left; congruence].
    assert (t0 = t) as -> by congruence.
    destruct Hst as [Hst|Hst]; [|congruence].
    right. rewrite Hst. destruct Hend as [-> | ->]; constructor.
  - (* a continuation *)
    unfold resume in Ht'.
    destruct (calls w !! slot) as [[r0|r0 [e|res]|r0|s]|];
      left; simpl in *; congruence.
Qed.

Lemma C8_status_transitions_witness :
  let w := run [CreateTask "list files" defaultConfig "id-1" 1;
                ExecuteTask "id-1" 2] init in
  let t := execute_enter 2 (Task_new "id-1" "list files" defaultConfig 1) in
  let res := executeTaskLogic_result "a.txt" 3 t in
  In "completed" status_values
  /\ (false = false -> completed = running \/ transition running completed).
Proof.
  intros w t res.
  exact (C8_status_transitions w (ProviderSettles 0 (inr "a.txt") 3 4) 0
           t (execute_complete res 4 t)
           (reachable_run _ _ reachable_init) eq_refl eq_refl).
Defined.

(** Each of the five values is reached, and a Task that was never started
    can be cancelled: pending -> cancelled. *)
Example status_values_reached :
  let w := run [CreateTask "a" defaultConfig "id-1" 1;
                CreateTask "b" defaultConfig "id-2" 2;
                CreateTask "c" defaultConfig "id-3" 3;
                CreateTask "d" defaultConfig "id-4" 4;
                CreateTask "e" defaultConfig "id-5" 5;
                ExecuteTask "id-1" 6; ProviderSettles 0 (inr "ok") 7 8; Resume 0;
                ExecuteTask "id-2" 9;
                ProviderSettles 1 (inl (mkError "provider unreachable")) 10 11;
                Resume 1;
                CancelTask "id-3" 12;
                ExecuteTask "id-4" 13] init in
  map status (heap w) = [completed; error; cancelled; running; pending].
Proof. vm_compute. reflexivity. Qed.

(** *** Terminal states *)

(** [executeTask] on a Task that has ended: the call is rejected with the
    error of [execute]'s guard once it resumes, and no Task has changed. *)
Lemma executeTask_terminal_rejected taskId now (w : World) (r : ref) (t : Task) :
  tasks w !! taskId = Some r -> heap w !! r = Some t ->
  is_terminal (status t) = true -> activeTask w = None ->
  let slot := length (calls w) in
  let w' := resume slot (snd (executeTask taskId now w)) in
  heap w' = heap w
  /\ activeTask w' = None
  /\ calls w' !! slot = Some (Done (Rejected (not_pending t))).
Proof.
  intros Hk Ht Hterm Ha slot w'. unfold w', executeTask.
  rewrite Hk, Ha. simpl. rewrite Ht, (execute_guard_terminal t Hterm). simpl.
  unfold resume. simpl.
  rewrite (list_lookup_middle (calls w) [] _ slot eq_refl). simpl.
  repeat split. apply list_lookup_insert_eq. rewrite length_app. simpl. lia.
Qed.

(** C3, at the input where the code departs from it.  A Task is started,
    then cancelled while the provider call is pending: its status is the
    terminal [cancelled] and it has no result.  When the provider then
    answers, [execute] runs on: the status becomes [completed] and the
    result is set. *)
Theorem C3_cancelled_then_completed :
  let w := run [CreateTask "list files" defaultConfig "id-1" 1;
                ExecuteTask "id-1" 2;
                CancelTask "id-1" 3] init in
  let w' := step (ProviderSettles 0 (inr "a.txt") 4 5) w in
  (status <$> getTask "id-1" w) = Some cancelled
  /\ (result <$> getTask "id-1" w) = Some None
  /\ (status <$> getTask "id-1" w') = Some completed
  /\ (result <$> getTask "id-1" w')
     = Some (Some (mkResult true "a.txt" 0 2 None)).
Proof. vm_compute. repeat split; reflexivity. Qed.

(** C4, at the input where the code departs from it.  A Task cancelled at
    time 10 is in a terminal state.  Cancelling it once more at time 20
    raises no error but stamps [completedAt] again, and a further call at
    time 30 stamps it a third time: one call and two calls leave different
    Tasks. *)
Theorem C4_cancel_twice_differs :
  let w := run [CreateTask "list files" defaultConfig "id-1" 1;
                CancelTask "id-1" 10; Resume 0] init in
  let once := snd (cancelTask_awaited "id-1" 20 w) in
  let twice := snd (cancelTask_awaited "id-1" 30 once) in
  (status <$> getTask "id-1" w) = Some cancelled
  /\ (completedAt <$> getTask "id-1" w) = Some (Some 10%Z)
  /\ fst (cancelTask_awaited "id-1" 20 w) = Resolved None
  /\ fst (cancelTask_awaited "id-1" 30 once) = Resolved None
  /\ (completedAt <$> getTask "id-1" once) = Some (Some 20%Z)
  /\ (completedAt <$> getTask "id-1" twice) = Some (Some 30%Z)
  /\ getTask "id-1" once <> getTask "id-1" twice.
Proof. vm_compute. repeat split; try reflexivity. discriminate. Qed.

(** On a completed or failed Task the same calls change no Task at all. *)
Lemma cancelTask_settled_keeps_heap taskId now (w : World) (r : ref) (t : Task) :
  tasks w !! taskId = Some r -> heap w !! r = Some t ->
  status t = completed \/ status t = error ->
  fst (cancelTask_awaited taskId now w) = Resolved None
  /\ heap (snd (cancelTask_awaited taskId now w)) = heap w.
Proof.
  intros Hk Ht Hst. unfold cancelTask_awaited, cancelTask.
  rewrite Hk, Ht, (Task_cancel_settled now t Hst). simpl. unfold resume. simpl.
  rewrite (list_lookup_middle (calls w) [] _ (length (calls w)) eq_refl). simpl.
  split; [reflexivity|]. by apply list_insert_id.
Qed.

(** *** Model calls *)

(** X24.  Whatever its configuration, the execution of a pending Task on
    an idle manager asks the model exactly once.  When the provider
    answers, the Task ends [completed] with that answer as the output of its
    result and the call resolves with the result; when the provider rejects
    with an error, the Task ends [error] carrying that very error and the
    call is rejected with it.  Either way [activeTask] is cleared. *)
Theorem X_execute_outcome :
  forall (w : World) (taskId : string) (r : ref) (t : Task)
         (now now_logic now' : number) (o : Error + string),
    tasks w !! taskId = Some r ->
    heap w !! r = Some t ->
    status t = pending ->
    activeTask w = None ->
    let slot := length (calls w) in
    let w1 := step (ExecuteTask taskId now) w in
    let w2 := step (ProviderSettles slot o now_logic now') w1 in
    let w3 := step (Resume slot) w2 in
    provider_calls (trace w3) = S (provider_calls (trace w))
    /\ activeTask w3 = None
    /\ match o with
       | inr response =>
           let res := mkResult true response 0 (now_logic - now) None in
           (status <$> heap w3 !! r) = Some completed
           /\ (result <$> heap w3 !! r) = Some (Some res)
           /\ (task_error <$> heap w3 !! r) = Some (task_error t)
           /\ calls w3 !! slot = Some (Done (Resolved (Some res)))
       | inl e =>
           (status <$> heap w3 !! r) = Some error
           /\ (task_error <$> heap w3 !! r) = Some (Some e)
           /\ (result <$> heap w3 !! r) = Some (result t)
           /\ calls w3 !! slot = Some (Done (Rejected e))
       end.
Proof.
  intros w taskId r t now now_logic now' o Hk Ht Hp Ha slot w1 w2 w3.
  assert (Hlen : r < length (heap w)) by (by eapply lookup_lt_Some).
  assert (Hw1 : w1 = set_calls (calls w ++ [AwaitingProvider r])
                       (emit [TaskEmit r (statusChanged running);
                              LoggerLog (starting_message (execute_enter now t));
                              ProviderComplete r (input t)]
                          (set_heap (<[r := execute_enter now t]> (heap w))
                             (emit [taskStarted r] (set_activeTask (Some r) w))))).
  { unfold w1. simpl. unfold executeTask. rewrite Hk, Ha. simpl. rewrite Ht.
    unfold execute_guard. rewrite Hp. reflexivity. }
  assert (Hslot1 : calls w1 !! slot = Some (AwaitingProvider r)).
  { rewrite Hw1. simpl. by apply list_lookup_middle. }
  assert (Hheap1 : heap w1 !! r = Some (execute_enter now t)).
  { rewrite Hw1. simpl. by apply list_lookup_insert_eq. }
  destruct o as [e|response].
  - assert (Hw2 : w2 = set_calls (<[slot := AwaitingExecute r (inl e)]> (calls w1))
                         (emit [TaskEmit r (statusChanged error); TaskEmit r (error_event e)]
                            (set_heap (<[r := execute_catch e now' (execute_enter now t)]>
                                         (heap w1)) w1))).
    { unfold w2. simpl. unfold provider_settles. rewrite Hslot1, Hheap1. reflexivity. }
    assert (Hslot2 : calls w2 !! slot = Some (AwaitingExecute r (inl e))).
    { rewrite Hw2. simpl. apply list_lookup_insert_eq. by eapply lookup_lt_Some. }
    assert (Hw3 : w3 = set_calls (<[slot := Done (Rejected e)]> (calls w2))
                         (set_activeTask None (emit [taskError r e] w2))).
    { unfold w3. simpl. unfold resume. rewrite Hslot2. reflexivity. }
    assert (Hheap3 : heap w3 !! r
                     = Some (execute_catch e now' (execute_enter now t))).
    { rewrite Hw3, Hw2. simpl. apply list_lookup_insert_eq.
      rewrite Hw1. simpl. by rewrite length_insert. }
    split; [|split; [|split; [|split; [|split]]]].
    + rewrite Hw3, Hw2, Hw1. simpl. rewrite !provider_calls_app. simpl. lia.
    + rewrite Hw3. reflexivity.
    + rewrite Hheap3. reflexivity.
    + rewrite Hheap3. reflexivity.
    + rewrite Hheap3. reflexivity.
    + rewrite Hw3. simpl. apply list_lookup_insert_eq. by eapply lookup_lt_Some.
  - set (res := executeTaskLogic_result response now_logic (execute_enter now t)).
    assert (Hw2 : w2 = set_calls (<[slot := AwaitingExecute r (inr res)]> (calls w1))
                         (emit [TaskEmit r (statusChanged completed);
                                TaskEmit r (completed_event res)]
                            (set_heap (<[r := execute_complete res now' (execute_enter now t)]>
                                         (heap w1)) w1))).
    { unfold w2. simpl. unfold provider_settles. rewrite Hslot1, Hheap1. reflexivity. }
    assert (Hslot2 : calls w2 !! slot = Some (AwaitingExecute r (inr res))).
    { rewrite Hw2. simpl. apply list_lookup_insert_eq. by eapply lookup_lt_Some. }
    assert (Hw3 : w3 = set_calls (<[slot := Done (Resolved (Some res))]> (calls w2))
                         (set_activeTask None (emit [taskCompleted r res] w2))).
    { unfold w3. simpl. unfold resume. rewrite Hslot2. reflexivity. }
    assert (Hheap3 : heap w3 !! r
                     = Some (execute_complete res now' (execute_enter now t))).
    { rewrite Hw3, Hw2. simpl. apply list_lookup_insert_eq.
      rewrite Hw1. simpl. by rewrite length_insert. }
    split; [|split; [|split; [|split; [|split]]]].
    + rewrite Hw3, Hw2, Hw1. simpl. rewrite !provider_calls_app. simpl. lia.
    + rewrite Hw3. reflexivity.
    + rewrite Hheap3. reflexivity.
    + rewrite Hheap3. reflexivity.
    + rewrite Hheap3. reflexivity.
    + rewrite Hw3. simpl. apply list_lookup_insert_eq. by eapply lookup_lt_Some.
Qed.

(** X24 on a Task whose provider answers. *)
Lemma X_execute_outcome_witness :
  let w := snd (createTask "list files" defaultConfig "id-1" 1 init) in
  let w3 := run [ExecuteTask "id-1" 2; ProviderSettles 0 (inr "a.txt") 5 6; Resume 0] w in
  provider_calls (trace w3) = 1
  /\ (status <$> heap w3 !! 0) = Some completed.
Proof.
  intros w w3.
  pose proof (X_execute_outcome w "id-1" 0
                (Task_new "id-1" "list files" defaultConfig 1) 2%Z 5%Z 6%Z (inr "a.txt")
                eq_refl eq_refl eq_refl eq_refl) as H.
  simpl in H. destruct H as (H1 & _ & H2 & _).
  split; [exact H1 | exact H2].
Defined.

End Engine_facts.

(** *** The register, the lock and the fields of a Task *)

Section Engine_more.
Import Engine.

Ltac snoc H := apply lookup_snoc_Some in H as [H|[? H]].
Ltac updated H := apply list_lookup_insert_Some in H as [(? & ? & ?)|[? H]].

Lemma tasks_run_app ls l (w : World) : run (ls ++ [l]) w = step l (run ls w).
Proof. unfold run. rewrite fold_left_app. reflexivity. Qed.

Lemma created_ids_app ls1 ls2 : created_ids (ls1 ++ ls2) = created_ids ls1 ++ created_ids ls2.
Proof.
  induction ls1 as [|l ls1 IH]; simpl; [reflexivity|].
  destruct l; simpl; rewrite ?IH; reflexivity.
Qed.

Lemma step_tasks (l : Label) (w : World) (k : string) :
  is_Some (tasks (step l w) !! k)
  <-> is_Some (tasks w !! k) \/ In k (created_ids [l]).
Proof.
  destruct l; simpl.
  - destruct (decide (uuid = k)) as [->|Hne].
    + rewrite lookup_insert_eq. split; eauto.
    + rewrite lookup_insert_ne by done. split; [eauto|]. intros [H|[H|[]]]; [done|congruence].
  - unfold executeTask. destruct (tasks w !! taskId); [destruct (activeTask w)|]; simpl;
      try tauto.
    destruct (heap w !! n); simpl; [|tauto].
    destruct (execute_guard t); simpl; tauto.
  - unfold cancelTask. destruct (tasks w !! taskId); simpl; [|tauto].
    destruct (heap w !! n); simpl; [|tauto].
    destruct (Task_cancel now t). simpl. tauto.
  - unfold provider_settles.
    destruct (calls w !! slot) as [[r| | |]|]; try tauto.
    destruct (heap w !! r); [|tauto]. destruct o; simpl; tauto.
  - unfold resume. destruct (calls w !! slot) as [[r|r [e|res]|r|s]|]; simpl; tauto.
Qed.

(** X1.  The ids the manager knows are exactly the ids its [createTask]
    calls handed out: nothing else registers a Task and nothing ever
    removes one.  On any other id [getTask] finds nothing, and [executeTask]
    and [cancelTask] reject with "Task <id> not found" and change nothing. *)
Theorem X_registered_ids :
  forall (ls : list Label) (k : string) (now : number),
    let w := run ls init in
    (is_Some (tasks w !! k) <-> In k (created_ids ls))
    /\ (~ In k (created_ids ls) ->
        getTask k w = None
        /\ executeTask k now w = (Now (Rejected (not_found k)), w)
        /\ cancelTask k now w = (Now (Rejected (not_found k)), w)).
Proof.
  intros ls k now w.
  assert (Hiff : is_Some (tasks w !! k) <-> In k (created_ids ls)).
  { unfold w. clear w. induction ls as [|l ls IH] using rev_ind.
    - simpl. rewrite lookup_empty. split; [intros [? ?]; discriminate | intros []].
    - rewrite tasks_run_app, created_ids_app, step_tasks, IH, in_app_iff. reflexivity. }
  split; [exact Hiff|]. intros Hnot.
  assert (Hnone : tasks w !! k = None).
  { destruct (tasks w !! k) eqn:E; [|reflexivity]. exfalso. apply Hnot, Hiff. eauto. }
  unfold getTask, executeTask, cancelTask. rewrite Hnone. auto.
Qed.

Lemma consistent_new uuid input config now : consistent (Task_new uuid input config now).
Proof. unfold consistent. simpl. auto. Qed.

Lemma consistent_enter now t :
  consistent t -> status t = pending -> consistent (execute_enter now t).
Proof. unfold consistent. intros H Hp. rewrite Hp in H. simpl. intuition eauto. Qed.

Lemma consistent_complete res now t :
  consistent t -> status t = running \/ status t = cancelled ->
  is_Some (startedAt t) ->
  consistent (execute_complete res now t).
Proof.
  unfold consistent. intros H [Hs|Hs] Hst; rewrite Hs in H; simpl; intuition eauto.
Qed.

Lemma consistent_catch e now t :
  consistent t -> status t = running \/ status t = cancelled ->
  is_Some (startedAt t) ->
  consistent (execute_catch e now t).
Proof.
  unfold consistent. intros H [Hs|Hs] Hst; rewrite Hs in H; simpl; intuition eauto.
Qed.

Lemma consistent_cancel now t :
  consistent t -> consistent (fst (Task_cancel now t)).
Proof.
  unfold consistent, Task_cancel. intros H.
  destruct (status t) eqn:Hs; simpl; rewrite ?Hs; intuition eauto.
Qed.

Lemma Task_cancel_keeps_provider now t :
  status t = running \/ status t = cancelled ->
  status (fst (Task_cancel now t)) = running
  \/ status (fst (Task_cancel now t)) = cancelled.
Proof. unfold Task_cancel. intros [Hs|Hs]; rewrite Hs; simpl; auto. Qed.

Lemma Task_cancel_startedAt now t :
  startedAt (fst (Task_cancel now t)) = startedAt t.
Proof. unfold Task_cancel. destruct (status t); reflexivity. Qed.

Lemma Inv2_init : Inv2 init.
Proof.
  split; simpl; intros *; try (rewrite ?lookup_empty, ?lookup_nil; discriminate).
Qed.

Lemma Inv2_step (l : Label) (w : World) : Inv w -> Inv2 w -> Inv2 (step l w).
Proof.
  intros HI H2. destruct l; simpl.
  - (* createTask *)
    split; simpl.
    + intros r t Hl. snoc Hl; [eauto using inv2_consistent|].
      subst t. apply consistent_new.
    + intros i r Hc. destruct (inv2_provider w H2 i r Hc) as (t & Hl & Hs).
      exists t. split; [by apply lookup_app_l_Some|done].
    + intros i c r Hc He. rewrite length_app. simpl.
      pose proof (inv2_valid w H2 i c r Hc He). lia.
    + eauto using inv2_active.
  - (* executeTask *)
    unfold executeTask.
    destruct (tasks w !! taskId) as [r|] eqn:Hk; [|exact H2].
    destruct (activeTask w) as [a|] eqn:Ha; [exact H2|].
    pose proof (no_exec_when_idle w HI Ha) as Hidle.
    simpl. destruct (heap w !! r) as [t|] eqn:Ht; simpl.
    2:{ exfalso. apply (inv_tasks w HI) in Hk. apply lookup_ge_None in Ht. lia. }
    assert (Hr : r < length (heap w)) by (by eapply lookup_lt_Some).
    unfold execute_guard. destruct (status_eqb (status t) pending) eqn:Hp; simpl.
    + assert (Hst : status t = pending) by (destruct (status t); done).
      split; simpl.
      * intros r' t' Hl. updated Hl; [subst; apply consistent_enter|];
          eauto using inv2_consistent.
      * intros i r' Hc. snoc Hc.
        -- pose proof (Hidle i _ Hc). discriminate.
        -- injection Hc as ->. exists (execute_enter now t).
           split; [by apply list_lookup_insert_eq|].
           simpl. eauto.
      * intros i c r' Hc He. rewrite length_insert. snoc Hc.
        -- rewrite (Hidle i c Hc) in He. discriminate.
        -- subst c. simpl in He. congruence.
      * intros r' [= <-]. exists (length (calls w)), (AwaitingProvider r).
        split; [by apply list_lookup_middle|reflexivity].
    + split; simpl.
      * eauto using inv2_consistent.
      * intros i r' Hc. snoc Hc; [|discriminate].
        pose proof (Hidle i _ Hc). discriminate.
      * intros i c r' Hc He. snoc Hc.
        -- rewrite (Hidle i c Hc) in He. discriminate.
        -- subst c. simpl in He. congruence.
      * intros r' [= <-]. exists (length (calls w)), (AwaitingExecute r (inl (not_pending t))).
        split; [by apply list_lookup_middle|reflexivity].
  - (* cancelTask *)
    unfold cancelTask.
    destruct (tasks w !! taskId) as [r|] eqn:Hk; [|exact H2].
    destruct (heap w !! r) as [t|] eqn:Ht; [|exact H2].
    pose proof (consistent_cancel now t) as Hcons.
    pose proof (Task_cancel_keeps_provider now t) as Hkeep.
    pose proof (Task_cancel_startedAt now t) as Hstart.
    destruct (Task_cancel now t) as [t' es]. simpl in *.
    split; simpl.
    + intros r' t'' Hl. updated Hl; [subst; apply Hcons|]; eauto using inv2_consistent.
    + intros i r' Hc. snoc Hc; [|discriminate].
      destruct (inv2_provider w H2 i r' Hc) as (t0 & Hl & Hs & Hst).
      destruct (decide (r = r')) as [<-|Hne].
      * assert (t0 = t) as -> by congruence.
        exists t'. split; [apply list_lookup_insert_eq; by eapply lookup_lt_Some|].
        rewrite Hstart. auto.
      * exists t0. split; [by rewrite list_lookup_insert_ne|done].
    + intros i c r' Hc He. rewrite length_insert. snoc Hc; [|subst c; discriminate].
      eauto using inv2_valid.
    + intros r' Ha. destruct (inv2_active w H2 r' Ha) as (i & c & Hc & He).
      exists i, c. split; [by apply lookup_app_l_Some|done].
  - (* the provider settles *)
    destruct (calls w !! slot) as [c|] eqn:Hslot;
      [|unfold provider_settles; rewrite Hslot; exact H2].
    destruct c as [r| | |]; try (unfold provider_settles; rewrite Hslot; exact H2).
    destruct (inv2_provider w H2 slot r Hslot) as (t & Ht & Hs & Hst).
    pose proof (inv2_consistent w H2 r t Ht) as Hc.
    assert (Hr : r < length (heap w)) by (by eapply lookup_lt_Some).
    assert (Hone : forall i ci, calls w !! i = Some ci -> is_Some (exec_ref ci) -> i = slot)
      by (intros i ci Hi Hci; eapply (inv_exec_unique w HI); eauto; simpl; eauto).
    unfold provider_settles. rewrite Hslot, Ht.
    destruct o as [e|response]; split; simpl.
    + intros r' t' Hl. updated Hl; [subst; by apply consistent_catch|];
        eauto using inv2_consistent.
    + intros i r' Hi. updated Hi; [discriminate|].
      exfalso. assert (i = slot) by (eapply Hone; eauto; simpl; eauto). congruence.
    + intros i c r' Hi He. rewrite length_insert. updated Hi.
      * subst c. simpl in He. congruence.
      * eauto using inv2_valid.
    + intros r' Ha. destruct (inv2_active w H2 r' Ha) as (i & c & Hi & He).
      assert (i = slot) as -> by (eapply Hone; eauto; rewrite He; eauto).
      assert (c = AwaitingProvider r) as -> by congruence.
      exists slot, (AwaitingExecute r (inl e)).
      split; [apply list_lookup_insert_eq; by eapply lookup_lt_Some|exact He].
    + intros r' t' Hl. updated Hl; [subst; by apply consistent_complete|];
        eauto using inv2_consistent.
    + intros i r' Hi. updated Hi; [discriminate|].
      exfalso. assert (i = slot) by (eapply Hone; eauto; simpl; eauto). congruence.
    + intros i c r' Hi He. rewrite length_insert. updated Hi.
      * subst c. simpl in He. congruence.
      * eauto using inv2_valid.
    + intros r' Ha. destruct (inv2_active w H2 r' Ha) as (i & c & Hi & He).
      assert (i = slot) as -> by (eapply Hone; eauto; rewrite He; eauto).
      assert (c = AwaitingProvider r) as -> by congruence.
      eexists slot, _.
      split; [apply list_lookup_insert_eq; by eapply lookup_lt_Some|exact He].
  - (* a continuation *)
    unfold resume.
    destruct (calls w !! slot) as [[r|r o|r|s]|] eqn:Hslot; try exact H2.
    + destruct o as [e|res]; split; simpl; eauto using inv2_consistent;
        try discriminate;
        try (intros i r' Hi; (updated Hi; [discriminate|]); eauto using inv2_provider);
        intros i c r' Hi He; (updated Hi; [subst c; discriminate|]);
        eauto using inv2_valid.
    + split; simpl; eauto using inv2_consistent.
      * intros i r' Hi. updated Hi; [discriminate|]. eauto using inv2_provider.
      * intros i c r' Hi He. updated Hi; [subst c; discriminate|].
        eauto using inv2_valid.
      * intros r' Ha. destruct (inv2_active w H2 r' Ha) as (i & c & Hi & He).
        exists i, c. split; [|done].
        rewrite list_lookup_insert_ne; [done|]. intros <-.
        rewrite Hslot in Hi. injection Hi as <-. discriminate.
Qed.

Lemma reachable_Inv2 (w : World) : reachable w -> Inv2 w.
Proof.
  induction 1; [apply Inv2_init|].
  apply Inv2_step; [by apply reachable_Inv|assumption].
Qed.

(** X2.  In every reachable state [activeTask] is set exactly while a call
    of [executeTask] is in flight on that Task (between its [try] and its
    [finally]), and the Task it names exists.  While it is null, an
    [executeTask] of any registered id is admitted and takes the lock. *)
Theorem X_activeTask_lock :
  forall (w : World), reachable w ->
    (forall r, activeTask w = Some r <->
               exists i c, calls w !! i = Some c /\ exec_ref c = Some r)
    /\ (forall r, activeTask w = Some r -> is_Some (heap w !! r))
    /\ (activeTask w = None ->
        forall taskId r now,
          tasks w !! taskId = Some r ->
          exists slot w', executeTask taskId now w = (Later slot, w')
                          /\ activeTask w' = Some r).
Proof.
  intros w Hw. pose proof (reachable_Inv w Hw) as HI.
  pose proof (reachable_Inv2 w Hw) as H2. split; [|split].
  - intros r. split; [apply (inv2_active w H2)|].
    intros (i & c & Hc & He). eapply (inv_exec_active w HI); eauto.
  - intros r Ha. destruct (inv2_active w H2 r Ha) as (i & c & Hc & He).
    apply lookup_lt_is_Some. eauto using inv2_valid.
  - intros Ha taskId r now Hk. unfold executeTask. rewrite Hk, Ha. simpl.
    destruct (heap w !! r) as [t|]; [|eauto].
    destruct (execute_guard t); simpl; eauto.
Qed.

(** X3.  The fields of a Task follow its status in every reachable state:
    [result] is set exactly when the status is completed, [error] exactly
    when it is error, [completedAt] exactly when the status is terminal; a
    Task without [startedAt] is pending or was cancelled before it started,
    a pending Task has no [startedAt], and the cancelled flag is only set
    on a terminal Task. *)
Theorem X_fields_by_status :
  forall (w : World) (r : ref) (t : Task),
    reachable w -> heap w !! r = Some t ->
    (is_Some (result t) <-> status t = completed)
    /\ (is_Some (task_error t) <-> status t = error)
    /\ (is_Some (completedAt t) <-> is_terminal (status t) = true)
    /\ (startedAt t = None -> status t = pending \/ status t = cancelled)
    /\ (status t = pending -> startedAt t = None)
    /\ (cancelled_flag t = true -> is_terminal (status t) = true).
Proof.
  intros w r t Hw Ht.
  pose proof (inv2_consistent w (reachable_Inv2 w Hw) r t Ht) as Hc.
  unfold consistent in Hc.
  destruct (status t) eqn:Hs; simpl;
    repeat match goal with H : _ /\ _ |- _ => destruct H end;
    repeat split; intros; try done; try congruence;
    repeat match goal with
           | H : is_Some ?x, E : ?x = None |- _ => rewrite E in H; destruct H; discriminate
           | E : ?x = None, H : is_Some ?x |- _ => rewrite E in H; destruct H; discriminate
           | E : ?x = None |- _ => rewrite E in *
           | H : is_Some None |- _ => destruct H; discriminate
           end; auto.
Qed.

Lemma step_fields (l : Label) (w : World) (r : ref) (t : Task) :
  Inv2 w -> heap w !! r = Some t ->
  exists t',
    heap (step l w) !! r = Some t'
    /\ id t' = id t /\ input t' = input t /\ config t' = config t
    /\ createdAt t' = createdAt t /\ subTasks t' = subTasks t
    /\ (is_Some (startedAt t) -> startedAt t' = startedAt t).
Proof.
  intros H2 Ht.
  assert (Hsame : exists t', Some t = Some t' /\ id t' = id t /\ input t' = input t
                             /\ config t' = config t /\ createdAt t' = createdAt t
                             /\ subTasks t' = subTasks t
                             /\ (is_Some (startedAt t) -> startedAt t' = startedAt t))
    by (exists t; repeat split; auto).
  assert (Hr : r < length (heap w)) by (by eapply lookup_lt_Some).
  assert (Hother : forall r0 t0, r0 <> r ->
            exists t', <[r0 := t0]> (heap w) !! r = Some t' /\ id t' = id t
                       /\ input t' = input t /\ config t' = config t
                       /\ createdAt t' = createdAt t /\ subTasks t' = subTasks t
                       /\ (is_Some (startedAt t) -> startedAt t' = startedAt t))
    by (intros r0 t0 Hne; rewrite list_lookup_insert_ne, Ht by done; exact Hsame).
  destruct l; simpl.
  - rewrite (lookup_app_l_Some _ _ _ _ Ht). exact Hsame.
  - unfold executeTask. destruct (tasks w !! taskId) as [r0|];
      [|simpl; rewrite Ht; exact Hsame].
    destruct (activeTask w); [simpl; rewrite Ht; exact Hsame|]. simpl.
    destruct (heap w !! r0) as [t0|] eqn:Ht0; simpl; [|rewrite Ht; exact Hsame].
    unfold execute_guard. destruct (status_eqb (status t0) pending) eqn:Hp; simpl;
      [|rewrite Ht; exact Hsame].
    destruct (decide (r0 = r)) as [->|Hne]; [|by apply Hother].
    rewrite list_lookup_insert_eq by done. assert (t0 = t) as -> by congruence.
    eexists; split; [reflexivity|]. simpl. repeat split; auto.
    intros [s Hs]. pose proof (inv2_consistent w H2 r t Ht) as Hc. unfold consistent in Hc.
    destruct (status t); try discriminate. destruct Hc as [Hc _]. congruence.
  - unfold cancelTask. destruct (tasks w !! taskId) as [r0|];
      [|simpl; rewrite Ht; exact Hsame].
    destruct (heap w !! r0) as [t0|] eqn:Ht0; [|simpl; rewrite Ht; exact Hsame].
    destruct (Task_cancel now t0) as [t0' es] eqn:Hc. simpl.
    destruct (decide (r0 = r)) as [->|Hne]; [|by apply Hother].
    rewrite list_lookup_insert_eq by done. assert (t0 = t) as -> by congruence.
    eexists; split; [reflexivity|]. unfold Task_cancel in Hc.
    destruct (status t); injection Hc as <- <-; simpl; repeat split; auto.
  - unfold provider_settles.
    destruct (calls w !! slot) as [[r0| | |]|]; try (rewrite Ht; exact Hsame).
    destruct (heap w !! r0) as [t0|] eqn:Ht0; [|rewrite Ht; exact Hsame].
    destruct o; simpl;
      (destruct (decide (r0 = r)) as [->|Hne]; [|by apply Hother]);
      rewrite list_lookup_insert_eq by done; assert (t0 = t) as -> by congruence;
      eexists; (split; [reflexivity|]); simpl; repeat split; auto.
  - unfold resume. destruct (calls w !! slot) as [[r0|r0 [e|res]|r0|s]|]; simpl;
      rewrite Ht; exact Hsame.
Qed.

(** X4.  Whatever happens to a Task after it exists, its [id], [input],
    [config] and [createdAt] stay as the constructor set them, the Task
    stays in the heap, and [startedAt], once set, is never changed. *)
Theorem X_task_fields_fixed :
  forall (ls : list Label) (w : World) (r : ref) (t : Task),
    reachable w -> heap w !! r = Some t ->
    exists t',
      heap (run ls w) !! r = Some t'
      /\ id t' = id t /\ input t' = input t /\ config t' = config t
      /\ createdAt t' = createdAt t
      /\ (forall s, startedAt t = Some s -> startedAt t' = Some s).
Proof.
  induction ls as [|l ls IH]; intros w r t Hw Ht; simpl.
  - exists t. repeat split; auto.
  - destruct (step_fields l w r t (reachable_Inv2 w Hw) Ht)
      as (t1 & H1 & Hid & Hin & Hcf & Hcr & _ & Hst).
    destruct (IH (step l w) r t1 (reachable_step l w Hw) H1)
      as (t' & H' & Hid' & Hin' & Hcf' & Hcr' & Hst').
    exists t'. repeat split; try congruence.
    intros s Hs. apply Hst'. rewrite Hst; eauto.
Qed.

(** X4 on a running Task that is cancelled and then completes. *)
Lemma X_task_fields_fixed_witness :
  let w := run [CreateTask "list files" defaultConfig "id-1" 1; ExecuteTask "id-1" 2] init in
  exists t',
    heap (run [CancelTask "id-1" 3; ProviderSettles 0 (inr "a.txt") 4 5; Resume 0] w) !! 0
    = Some t'
    /\ id t' = "id-1" /\ input t' = "list files" /\ config t' = defaultConfig
    /\ createdAt t' = 1%Z
    /\ (forall s, Some 2%Z = Some s -> startedAt t' = Some s).
Proof.
  intros w.
  exact (X_task_fields_fixed
           [CancelTask "id-1" 3; ProviderSettles 0 (inr "a.txt") 4 5; Resume 0] w 0
           (execute_enter 2 (Task_new "id-1" "list files" defaultConfig 1))
           (reachable_run _ _ reachable_init) eq_refl).
Defined.

Lemma announced_app r tr1 tr2 s :
  announced r (tr1 ++ tr2) s = announced r tr2 (announced r tr1 s).
Proof.
  revert s. induction tr1 as [|e tr1 IH]; intros s; simpl; [reflexivity|].
  destruct e as [r' [s'| | |]| | | | | | |]; apply IH.
Qed.

Lemma status_or_pending_insert (w : World) (r0 r : ref) (t0 t0' : Task) :
  heap w !! r0 = Some t0 ->
  match <[r0 := t0']> (heap w) !! r with Some t => status t | None => pending end
  = if Nat.eqb r0 r then status t0' else status_or_pending w r.
Proof.
  intros Ht0. unfold status_or_pending. destruct (Nat.eqb_spec r0 r) as [->|Hne].
  - rewrite list_lookup_insert_eq; [done|by eapply lookup_lt_Some].
  - by rewrite list_lookup_insert_ne.
Qed.

Lemma announced_step (l : Label) (w : World) (r : ref) :
  announced r (trace w) pending = status_or_pending w r ->
  announced r (trace (step l w)) pending = status_or_pending (step l w) r.
Proof.
  intros HJ.
  destruct l as [inp cfg uuid now|taskId now|taskId now|slot o now_logic now|slot]; simpl.
  - (* createTask *)
    rewrite announced_app, HJ. simpl. unfold status_or_pending. simpl.
    destruct (heap w !! r) as [t|] eqn:Ht.
    + by rewrite (lookup_app_l_Some _ _ _ _ Ht).
    + apply lookup_ge_None in Ht.
      destruct ((heap w ++ [Task_new uuid inp cfg now]) !! r) as [t'|] eqn:Ht';
        [|reflexivity].
      apply lookup_snoc_Some in Ht' as [Ht'|[_ ->]]; [|reflexivity].
      apply lookup_lt_Some in Ht'. lia.
  - (* executeTask *)
    unfold executeTask. destruct (tasks w !! taskId) as [r0|]; [|exact HJ].
    destruct (activeTask w); [exact HJ|]. simpl.
    destruct (heap w !! r0) as [t0|] eqn:Ht0; simpl.
    2:{ rewrite announced_app, HJ. reflexivity. }
    unfold execute_guard. destruct (status_eqb (status t0) pending) eqn:Hp; simpl.
    + rewrite !announced_app, HJ. simpl. unfold status_or_pending at 2. simpl.
      rewrite (status_or_pending_insert w r0 r t0 _ Ht0). reflexivity.
    + rewrite announced_app, HJ. reflexivity.
  - (* cancelTask *)
    unfold cancelTask. destruct (tasks w !! taskId) as [r0|]; [|exact HJ].
    destruct (heap w !! r0) as [t0|] eqn:Ht0; [|exact HJ].
    destruct (Task_cancel now t0) as [t0' es] eqn:Hc. simpl.
    rewrite announced_app, HJ. unfold status_or_pending at 2. simpl.
    rewrite (status_or_pending_insert w r0 r t0 _ Ht0).
    unfold Task_cancel in Hc.
    destruct (status t0) eqn:Hs; injection Hc as <- <-; simpl;
      destruct (Nat.eqb_spec r0 r) as [->|Hne]; try reflexivity;
      unfold status_or_pending; rewrite Ht0; simpl; congruence.
  - (* the provider settles *)
    unfold provider_settles.
    destruct (calls w !! slot) as [[r0| | |]|]; try exact HJ.
    destruct (heap w !! r0) as [t0|] eqn:Ht0; [|exact HJ].
    destruct o; simpl; rewrite announced_app, HJ; unfold status_or_pending at 2; simpl;
      rewrite (status_or_pending_insert w r0 r t0 _ Ht0); reflexivity.
  - (* a continuation *)
    unfold resume. destruct (calls w !! slot) as [[r0|r0 [e|res]|r0|s]|]; simpl;
      try exact HJ; rewrite announced_app, HJ; reflexivity.
Qed.

(** X5.  The [statusChanged] events tell the truth: at any moment the
    status of a Task is the one its last [statusChanged] event announced,
    and [pending] if it has announced none.  No status is written without
    its event. *)
Theorem X_status_log_faithful :
  forall (ls : list Label) (r : ref),
    let w := run ls init in
    announced r (trace w) pending
    = match heap w !! r with Some t => status t | None => pending end.
Proof.
  intros ls r w. unfold w. clear w.
  induction ls as [|l ls IH] using rev_ind; [reflexivity|].
  rewrite tasks_run_app. by apply announced_step.
Qed.

Lemma started_tasks_app h1 h2 :
  started_tasks (h1 ++ h2) = started_tasks h1 + started_tasks h2.
Proof.
  induction h1 as [|t h1 IH]; simpl; [reflexivity|].
  destruct (startedAt t); simpl; rewrite IH; reflexivity.
Qed.

Lemma started_tasks_insert_same (h : list Task) (r : ref) (t t' : Task) :
  h !! r = Some t -> startedAt t' = startedAt t ->
  started_tasks (<[r := t']> h) = started_tasks h.
Proof.
  revert r. induction h as [|x h IH]; intros r Hr Hs; [by rewrite lookup_nil in Hr|].
  destruct r as [|r]; simpl in *.
  - injection Hr as ->. rewrite Hs. reflexivity.
  - rewrite (IH r Hr Hs). reflexivity.
Qed.

Lemma started_tasks_insert_start (h : list Task) (r : ref) (t t' : Task) :
  h !! r = Some t -> startedAt t = None -> is_Some (startedAt t') ->
  started_tasks (<[r := t']> h) = S (started_tasks h).
Proof.
  revert r. induction h as [|x h IH]; intros r Hr Hs [s Hs']; [by rewrite lookup_nil in Hr|].
  destruct r as [|r]; simpl in *.
  - injection Hr as ->. rewrite Hs, Hs'. reflexivity.
  - rewrite (IH r Hr Hs (ex_intro _ s Hs')). destruct (startedAt x); reflexivity.
Qed.

Lemma provider_calls_step (l : Label) (w : World) :
  Inv2 w ->
  provider_calls (trace w) = started_tasks (heap w) ->
  provider_calls (trace (step l w)) = started_tasks (heap (step l w)).
Proof.
  intros H2 HJ.
  destruct l as [inp cfg uuid now|taskId now|taskId now|slot o now_logic now|slot]; simpl.
  - rewrite provider_calls_app, started_tasks_app, HJ. simpl. lia.
  - unfold executeTask. destruct (tasks w !! taskId) as [r0|]; [|exact HJ].
    destruct (activeTask w); [exact HJ|]. simpl.
    destruct (heap w !! r0) as [t0|] eqn:Ht0; simpl.
    2:{ rewrite provider_calls_app, HJ. simpl. lia. }
    unfold execute_guard. destruct (status_eqb (status t0) pending) eqn:Hp; simpl.
    + rewrite !provider_calls_app, HJ. simpl.
      rewrite (started_tasks_insert_start _ _ t0); [lia|done| |simpl; eauto].
      pose proof (inv2_consistent w H2 r0 t0 Ht0) as Hc. unfold consistent in Hc.
      destruct (status t0); try discriminate. tauto.
    + rewrite provider_calls_app, HJ. simpl. lia.
  - unfold cancelTask. destruct (tasks w !! taskId) as [r0|]; [|exact HJ].
    destruct (heap w !! r0) as [t0|] eqn:Ht0; [|exact HJ].
    pose proof (Task_cancel_startedAt now t0) as Hst.
    destruct (Task_cancel now t0) as [t0' es] eqn:Hc. simpl in *.
    rewrite provider_calls_app, HJ, (started_tasks_insert_same _ _ t0) by done.
    unfold Task_cancel in Hc. destruct (status t0); injection Hc as <- <-; simpl; lia.
  - unfold provider_settles.
    destruct (calls w !! slot) as [[r0| | |]|]; try exact HJ.
    destruct (heap w !! r0) as [t0|] eqn:Ht0; [|exact HJ].
    destruct o; simpl; rewrite provider_calls_app, HJ,
      (started_tasks_insert_same _ _ t0) by done; simpl; lia.
  - unfold resume. destruct (calls w !! slot) as [[r0|r0 [e|res]|r0|s]|]; simpl;
      try exact HJ; rewrite provider_calls_app, HJ; simpl; lia.
Qed.

Lemma prompts_step (l : Label) (w : World) :
  Inv2 w ->
  (forall r p, In (ProviderComplete r p) (trace w) ->
               exists t, heap w !! r = Some t /\ input t = p /\ is_Some (startedAt t)) ->
  forall r p, In (ProviderComplete r p) (trace (step l w)) ->
              exists t, heap (step l w) !! r = Some t /\ input t = p
                        /\ is_Some (startedAt t).
Proof.
  intros H2 HJ r p Hin.
  assert (Hold : In (ProviderComplete r p) (trace w) ->
                 exists t, heap (step l w) !! r = Some t /\ input t = p
                           /\ is_Some (startedAt t)).
  { intros Hi. destruct (HJ r p Hi) as (t & Ht & Hp & Hs).
    destruct (step_fields l w r t H2 Ht) as (t' & Ht' & _ & Hin' & _ & _ & _ & Hst).
    exists t'. repeat split; [done|congruence|]. rewrite Hst; done. }
  destruct l as [inp cfg uuid now|taskId now|taskId now|slot o now_logic now|slot];
    simpl in Hin.
  - apply in_app_iff in Hin as [Hin|[Hin|[]]]; [auto|discriminate].
  - revert Hin Hold. simpl. unfold executeTask.
    destruct (tasks w !! taskId) as [r0|]; [|by auto].
    destruct (activeTask w); [by auto|]. simpl.
    destruct (heap w !! r0) as [t0|] eqn:Ht0; simpl.
    2:{ intros Hin Hold. apply in_app_iff in Hin as [Hin|[Hin|[]]]; [auto|discriminate]. }
    unfold execute_guard. destruct (status_eqb (status t0) pending) eqn:Hp; simpl.
    + intros Hin Hold. apply in_app_iff in Hin as [Hin|Hin].
      * apply in_app_iff in Hin as [Hin|[Hin|[]]]; [auto|discriminate].
      * destruct Hin as [Hin|[Hin|[Hin|[]]]]; try discriminate.
        injection Hin as <- <-. exists (execute_enter now t0).
        split; [apply list_lookup_insert_eq; by eapply lookup_lt_Some|].
        simpl. eauto.
    + intros Hin Hold. apply in_app_iff in Hin as [Hin|[Hin|[]]]; [auto|discriminate].
  - revert Hin Hold. simpl. unfold cancelTask.
    destruct (tasks w !! taskId) as [r0|]; [|by auto].
    destruct (heap w !! r0) as [t0|] eqn:Ht0; [|by auto].
    destruct (Task_cancel now t0) as [t0' es] eqn:Hc. simpl.
    intros Hin Hold. apply in_app_iff in Hin as [Hin|Hin]; [auto|].
    apply in_map_iff in Hin as (e & He & _). discriminate.
  - revert Hin Hold. simpl. unfold provider_settles.
    destruct (calls w !! slot) as [[r0| | |]|]; try by auto.
    destruct (heap w !! r0) as [t0|] eqn:Ht0; [|by auto].
    destruct o; simpl; intros Hin Hold;
      (apply in_app_iff in Hin as [Hin|[Hin|[Hin|[]]]]; [auto|discriminate|discriminate]).
  - revert Hin Hold. simpl. unfold resume.
    destruct (calls w !! slot) as [[r0|r0 [e|res]|r0|s]|]; simpl; try by auto.
    all: intros Hin Hold; apply in_app_iff in Hin as [Hin|[Hin|[]]]; [auto|discriminate].
Qed.

(** X6.  In every reachable state the number of calls made to the AI
    provider is the number of Tasks that have been started, and every call
    was made for a started Task with that Task's input as prompt: refused
    or repeated [executeTask] calls, cancellations and settlements reach
    the provider never. *)
Theorem X_one_model_call_per_started_task :
  forall (w : World), reachable w ->
    provider_calls (trace w) = started_tasks (heap w)
    /\ (forall r p, In (ProviderComplete r p) (trace w) ->
                    exists t, heap w !! r = Some t /\ input t = p
                              /\ is_Some (startedAt t)).
Proof.
  induction 1 as [|l w Hw [IH1 IH2]]; [split; [reflexivity|intros r p []]|].
  pose proof (reachable_Inv2 w Hw) as H2. split.
  - by apply provider_calls_step.
  - by apply prompts_step.
Qed.

(** X7.  [executeTask] on a Task that is no longer pending, with no Task
    active: the manager still takes the lock and emits [taskStarted]; the
    Task's guard then throws "Task <id> is not in pending state", the
    manager emits [taskError], rejects with that error and releases the
    lock.  No Task is changed and the provider is not called. *)
Theorem X_executeTask_refused_by_guard :
  forall (taskId : string) (now : number) (w : World) (r : ref) (t : Task),
    tasks w !! taskId = Some r -> heap w !! r = Some t ->
    status t <> pending -> activeTask w = None ->
    let slot := length (calls w) in
    let w1 := snd (executeTask taskId now w) in
    let w2 := resume slot w1 in
    fst (executeTask taskId now w) = Later slot
    /\ activeTask w1 = Some r
    /\ heap w2 = heap w
    /\ activeTask w2 = None
    /\ calls w2 !! slot = Some (Done (Rejected (not_pending t)))
    /\ trace w2 = trace w ++ [taskStarted r; taskError r (not_pending t)].
Proof.
  intros taskId now w r t Hk Ht Hs Ha slot w1 w2.
  assert (Hg : execute_guard t = Some (not_pending t)).
  { unfold execute_guard. destruct (status t); simpl; congruence. }
  assert (Hw1 : executeTask taskId now w
                = (Later slot,
                   set_calls (calls w ++ [AwaitingExecute r (inl (not_pending t))])
                     (emit [taskStarted r] (set_activeTask (Some r) w)))).
  { unfold executeTask. rewrite Hk, Ha. simpl. rewrite Ht, Hg. reflexivity. }
  unfold w2, w1. rewrite Hw1. simpl. unfold resume. simpl.
  rewrite (list_lookup_middle (calls w) [] _ slot eq_refl). simpl.
  repeat split.
  - apply list_lookup_insert_eq. rewrite length_app. simpl. lia.
  - rewrite <- app_assoc. reflexivity.
Qed.

(** X7 on a completed Task. *)
Lemma X_executeTask_refused_by_guard_witness :
  let w := run [CreateTask "list files" defaultConfig "id-1" 1;
                ExecuteTask "id-1" 2; ProviderSettles 0 (inr "a.txt") 3 4; Resume 0] init in
  let started := execute_enter 2 (Task_new "id-1" "list files" defaultConfig 1) in
  let t := execute_complete (executeTaskLogic_result "a.txt" 3 started) 4 started in
  let w2 := resume 1 (snd (executeTask "id-1" 5 w)) in
  fst (executeTask "id-1" 5 w) = Later 1
  /\ activeTask (snd (executeTask "id-1" 5 w)) = Some 0
  /\ heap w2 = heap w
  /\ activeTask w2 = None
  /\ calls w2 !! 1 = Some (Done (Rejected (not_pending t)))
  /\ trace w2 = trace w ++ [taskStarted 0; taskError 0 (not_pending t)].
Proof.
  intros w started t w2.
  exact (X_executeTask_refused_by_guard "id-1" 5%Z w 0 t eq_refl eq_refl
           ltac:(discriminate) eq_refl).
Defined.

(** X8.  [cancelTask] on a completed or failed Task resolves, changes no
    Task and not the lock, and still emits [taskCancelled] for it. *)
Theorem X_cancelTask_after_the_end :
  forall (taskId : string) (now : number) (w : World) (r : ref) (t : Task),
    tasks w !! taskId = Some r -> heap w !! r = Some t ->
    status t = completed \/ status t = error ->
    let w' := snd (cancelTask_awaited taskId now w) in
    fst (cancelTask_awaited taskId now w) = Resolved None
    /\ heap w' = heap w
    /\ activeTask w' = activeTask w
    /\ trace w' = trace w ++ [taskCancelled r].
Proof.
  intros taskId now w r t Hk Ht Hst w'. unfold w', cancelTask_awaited, cancelTask.
  rewrite Hk, Ht, (Task_cancel_settled now t Hst). simpl. unfold resume. simpl.
  rewrite (list_lookup_middle (calls w) [] _ (length (calls w)) eq_refl). simpl.
  repeat split.
  - by apply list_insert_id.
  - by rewrite app_nil_r.
Qed.

(** X8 on a completed Task. *)
Lemma X_cancelTask_after_the_end_witness :
  let w := run [CreateTask "list files" defaultConfig "id-1" 1;
                ExecuteTask "id-1" 2; ProviderSettles 0 (inr "a.txt") 3 4; Resume 0] init in
  let started := execute_enter 2 (Task_new "id-1" "list files" defaultConfig 1) in
  let t := execute_complete (executeTaskLogic_result "a.txt" 3 started) 4 started in
  let w' := snd (cancelTask_awaited "id-1" 9 w) in
  fst (cancelTask_awaited "id-1" 9 w) = Resolved None
  /\ heap w' = heap w
  /\ activeTask w' = activeTask w
  /\ trace w' = trace w ++ [taskCancelled 0].
Proof.
  intros w started t w'.
  exact (X_cancelTask_after_the_end "id-1" 9%Z w 0 t eq_refl eq_refl
           (or_introl eq_refl)).
Defined.

(** X9.  [cancelTask] never releases the lock: when a Task is active,
    it is still the active one after any [cancelTask] (of itself
    included), so [executeTask] of every registered Task is still rejected
    with "Another task is already running". *)
Theorem X_cancel_keeps_the_lock :
  forall (w : World) (r : ref) (taskId other : string) (now now' : number),
    activeTask w = Some r ->
    let w' := snd (cancelTask taskId now w) in
    activeTask w' = Some r
    /\ tasks w' = tasks w
    /\ (is_Some (tasks w !! other) ->
        executeTask other now' w' = (Now (Rejected AlreadyRunning), w')).
Proof.
  intros w r taskId other now now' Ha w'.
  assert (H1 : activeTask w' = Some r /\ tasks w' = tasks w).
  { unfold w', cancelTask. destruct (tasks w !! taskId) as [r0|]; [|done].
    destruct (heap w !! r0) as [t0|]; [|done].
    destruct (Task_cancel now t0). done. }
  destruct H1 as [H1 H2]. repeat split; [done..|].
  intros [r' Hr']. unfold executeTask. rewrite H2, Hr', H1. reflexivity.
Qed.

(** X9: the running Task is cancelled, and another one is still refused. *)
Lemma X_cancel_keeps_the_lock_witness :
  let w := run [CreateTask "list files" defaultConfig "id-1" 1;
                CreateTask "fix bug" defaultConfig "id-2" 2;
                ExecuteTask "id-1" 3] init in
  let w' := snd (cancelTask "id-1" 4 w) in
  (status <$> getTask "id-1" w') = Some cancelled
  /\ executeTask "id-2" 5 w' = (Now (Rejected AlreadyRunning), w').
Proof.
  intros w w'. split; [reflexivity|].
  refine (proj2 (proj2 (X_cancel_keeps_the_lock w 0 "id-1" "id-2" 4%Z 5%Z eq_refl)) _).
  exists 1. vm_compute. reflexivity.
Defined.

(** X2 at a manager whose second Task is executing and was cancelled
    meanwhile: the lock is still held, by a Task that exists. *)
Lemma X_activeTask_lock_witness :
  let w := run [CreateTask "list files" defaultConfig "id-1" 1;
                CreateTask "fix bug" defaultConfig "id-2" 2;
                ExecuteTask "id-2" 3;
                CancelTask "id-2" 4] init in
  activeTask w = Some 1 /\ is_Some (heap w !! 1).
Proof.
  intros w. split; [reflexivity|].
  exact (proj1 (proj2 (X_activeTask_lock w (reachable_run _ _ reachable_init)))
           1 eq_refl).
Defined.

(** X3 on a Task whose provider rejected. *)
Lemma X_fields_by_status_witness :
  let w := run [CreateTask "list files" defaultConfig "id-1" 1;
                ExecuteTask "id-1" 2;
                ProviderSettles 0 (inl (mkError "rate limited")) 5 6;
                Resume 0] init in
  let t := execute_catch (mkError "rate limited") 6
             (execute_enter 2 (Task_new "id-1" "list files" defaultConfig 1)) in
  heap w !! 0 = Some t
  /\ (is_Some (task_error t) <-> status t = error)
  /\ (is_Some (result t) <-> status t = completed).
Proof.
  intros w t.
  pose proof (X_fields_by_status w 0 t (reachable_run _ _ reachable_init) eq_refl)
    as (H1 & H2 & _).
  split; [reflexivity|]. split; [exact H2|exact H1].
Defined.

(** X6 on a manager with two Tasks, one executed, refused a second time,
    the other started: two provider calls. *)
Lemma X_one_model_call_per_started_task_witness :
  let w := run [CreateTask "list files" defaultConfig "id-1" 1;
                CreateTask "fix bug" defaultConfig "id-2" 2;
                ExecuteTask "id-1" 3;
                ProviderSettles 0 (inr "a.txt") 5 6;
                Resume 0;
                ExecuteTask "id-1" 7;
                Resume 1;
                ExecuteTask "id-2" 8] init in
  provider_calls (trace w) = 2 /\ started_tasks (heap w) = 2.
Proof.
  intros w.
  pose proof (proj1 (X_one_model_call_per_started_task w
                       (reachable_run _ _ reachable_init))) as H.
  split; [reflexivity|]. rewrite <- H. reflexivity.
Defined.

End Engine_more.

(** ** The example API server *)

Section ApiServer_facts.
Import ApiServer.

(** [RooCodeEngine.executeTask] is another operation than the manager's: it
    takes a request, builds the task itself, already running, and asks for
    nothing but the session.  Two requests give two running tasks. *)
Lemma RooCodeEngine_executeTask_unguarded (e : RooCodeEngine) (session : Session)
    (q1 q2 : TaskRequest) (u1 u2 : string) :
  sessions e !! sessionId q1 = Some session ->
  sessionId q2 = sessionId q1 ->
  u1 <> u2 ->
  let e1 := snd (executeTask q1 u1 e) in
  let e2 := snd (executeTask q2 u2 e1) in
  fst (executeTask q1 u1 e) = inr u1
  /\ fst (executeTask q2 u2 e1) = inr u2
  /\ (task_status <$> activeTasks e2 !! u1) = Some "running"
  /\ (task_status <$> activeTasks e2 !! u2) = Some "running".
Proof.
  intros Hs Hq Hu. unfold executeTask. rewrite Hs. simpl. rewrite Hq, Hs. simpl.
  repeat split.
  - rewrite lookup_insert_ne by congruence. by rewrite lookup_insert_eq.
  - by rewrite lookup_insert_eq.
Qed.

End ApiServer_facts.

(** *** Sessions and tasks of the example engine *)

Section ApiServer_more.
Import ApiServer.

Lemma serve_snoc qs q e : serve (qs ++ [q]) e = handle q (serve qs e).
Proof. unfold serve. by rewrite fold_left_app. Qed.

Lemma session_ids_app qs1 qs2 :
  session_ids (qs1 ++ qs2) = session_ids qs1 ++ session_ids qs2.
Proof.
  induction qs1 as [|q qs1 IH]; [reflexivity|].
  destruct q; simpl; by rewrite IH.
Qed.

Lemma handle_sessions (q : Request) (e : RooCodeEngine) (k : string) :
  is_Some (sessions (handle q e) !! k)
  <-> is_Some (sessions e !! k) \/ In k (session_ids [q]).
Proof.
  destruct q as [user cfg uuid1 uuid2 now|request uuid]; simpl.
  - destruct (decide (uuid1 = k)) as [->|Hne].
    + rewrite lookup_insert_eq. split; [auto|]. intros _. by eexists.
    + rewrite lookup_insert_ne by exact Hne. split; [auto|].
      intros [H|[H|[]]]; [exact H|contradiction].
  - unfold executeTask. destruct (sessions e !! sessionId request); simpl;
      split; auto; intros [H|[]]; exact H.
Qed.

Lemma sessions_serve (qs : list Request) (k : string) :
  is_Some (sessions (serve qs new) !! k) <-> In k (session_ids qs).
Proof.
  revert k. induction qs as [|q qs IH] using rev_ind; intros k.
  - simpl. split; [intros [x Hx]; discriminate Hx|intros []].
  - rewrite serve_snoc, handle_sessions, session_ids_app, in_app_iff, IH.
    reflexivity.
Qed.

(** X21.  The engine of the example server knows exactly the sessions its
    [createSession] calls returned.  [executeTask] for one of them returns
    the new task id; for any other session id it throws "Session not
    found" and changes nothing. *)
Theorem X_api_sessions :
  forall (qs : list Request) (request : TaskRequest) (uuid : string),
    let e := serve qs new in
    (is_Some (sessions e !! sessionId request) <-> In (sessionId request) (session_ids qs))
    /\ (In (sessionId request) (session_ids qs) ->
        fst (executeTask request uuid e) = inr uuid)
    /\ (~ In (sessionId request) (session_ids qs) ->
        executeTask request uuid e = (inl (Engine.mkError "Session not found"), e)).
Proof.
  intros qs request uuid e.
  pose proof (sessions_serve qs) as H. fold e in H.
  split; [apply H|split].
  - intros Hin. apply H in Hin as [s Hs]. unfold executeTask. by rewrite Hs.
  - intros Hin. unfold executeTask.
    destruct (sessions e !! sessionId request) as [s|] eqn:Hs; [|reflexivity].
    exfalso. apply Hin, H. by eexists.
Qed.

Lemma ApiInv_handle q e : ApiInv e -> ApiInv (handle q e).
Proof.
  intros [Hs Ht]. destruct q as [user cfg uuid1 uuid2 now|request uuid]; simpl.
  - split; simpl.
    + intros k s. destruct (decide (uuid1 = k)) as [->|Hne].
      * rewrite lookup_insert_eq. by intros [= <-].
      * rewrite lookup_insert_ne by exact Hne. apply Hs.
    + intros k t Hk. destruct (Ht k t Hk) as (? & ? & Hse & ?).
      repeat split; try assumption.
      destruct (decide (uuid1 = task_sessionId t)) as [->|Hne].
      * rewrite lookup_insert_eq. by eexists.
      * by rewrite lookup_insert_ne.
  - unfold executeTask. destruct (sessions e !! sessionId request) as [s|] eqn:Hse; simpl.
    + split; simpl; [exact Hs|].
      intros k t. destruct (decide (uuid = k)) as [->|Hne].
      * rewrite lookup_insert_eq. intros [= <-]. simpl.
        repeat split; [by eexists|]. apply in_app_iff. right. by left.
      * rewrite lookup_insert_ne by exact Hne. intros Hk.
        destruct (Ht k t Hk) as (? & ? & ? & ?). repeat split; try assumption.
        apply in_app_iff. by left.
    + by split.
Qed.

Lemma ApiInv_serve qs : ApiInv (serve qs new).
Proof.
  induction qs as [|q qs IH] using rev_ind.
  - split; simpl; intros k x Hx; rewrite lookup_empty in Hx; discriminate.
  - rewrite serve_snoc. by apply ApiInv_handle.
Qed.

(** X22.  Every task the example engine holds is stored under its own id,
    has status "running", belongs to a session that was created, and its
    start was announced to that session.  No later request removes it or
    gives any task another status: the engine never finishes a task. *)
Theorem X_api_tasks_stay_running :
  forall (qs : list Request) (k : string) (t : TaskObject),
    let e := serve qs new in
    activeTasks e !! k = Some t ->
    (task_id t = k /\ task_status t = "running"
     /\ In (task_sessionId t) (session_ids qs)
     /\ In (started t) (sent e))
    /\ forall more, activeTasks (serve more e) !! task_id t <> None
                    /\ forall k' t', activeTasks (serve more e) !! k' = Some t' ->
                                     task_status t' = "running".
Proof.
  intros qs k t e Hk.
  destruct (api_tasks _ (ApiInv_serve qs) k t Hk) as (Hid & Hst & Hse & Hsent).
  split.
  - repeat split; try assumption.
    by apply sessions_serve.
  - intros more. split.
    + rewrite Hid. clear -Hk. fold e.
      induction more as [|q more IH] using rev_ind; simpl.
      * unfold e in *. by rewrite Hk.
      * rewrite serve_snoc. destruct q as [user cfg uuid1 uuid2 now|request uuid]; simpl.
        -- exact IH.
        -- unfold executeTask.
           destruct (sessions (serve more e) !! sessionId request); simpl; [|exact IH].
           destruct (decide (uuid = k)) as [->|Hne].
           ++ by rewrite lookup_insert_eq.
           ++ by rewrite lookup_insert_ne.
    + intros k' t' Hk'. unfold e in Hk'. unfold serve in Hk'.
      rewrite <- fold_left_app in Hk'.
      by destruct (api_tasks _ (ApiInv_serve (qs ++ more)) k' t' Hk') as (_ & ? & _).
Qed.

(** X22 for one session with one task. *)
Lemma X_api_tasks_stay_running_witness :
  let cfg := mkSessionConfig "anthropic" "key" "sonnet" "code" [] 1024 in
  let qs := [CreateSession "ann" cfg "s-1" "w-1" 1;
             ExecuteTask (mkRequest "s-1" "list files" None) "t-1"] in
  let t := mkTaskObject "t-1" "s-1" "list files" "running" "/tmp/roo-workspaces/w-1" in
  task_id t = "t-1" /\ task_status t = "running"
  /\ In (task_sessionId t) (session_ids qs)
  /\ In (started t) (sent (serve qs new)).
Proof.
  intros cfg qs t.
  exact (proj1 (X_api_tasks_stay_running qs "t-1" t ltac:(vm_compute; reflexivity))).
Defined.

Lemma prefix_cancel (p a b : string) : p +:+ a = p +:+ b -> a = b.
Proof.
  induction p as [|c p IH]; [auto|].
  change (String c (p +:+ a) = String c (p +:+ b) -> a = b).
  intros [= H]. by apply IH.
Qed.

(** X23.  Two tasks get the same workspace directory exactly when their
    sessions have the same workspace id; two tasks of one session share
    it. *)
Theorem X_api_workspace_per_session :
  forall (e : RooCodeEngine) (q1 q2 : TaskRequest) (s1 s2 : Session) (u1 u2 : string),
    sessions e !! sessionId q1 = Some s1 ->
    sessions e !! sessionId q2 = Some s2 ->
    u1 <> u2 ->
    let e2 := snd (executeTask q2 u2 (snd (executeTask q1 u1 e))) in
    exists t1 t2,
      activeTasks e2 !! u1 = Some t1 /\ activeTasks e2 !! u2 = Some t2
      /\ (task_workspace t1 = task_workspace t2 <-> workspaceId s1 = workspaceId s2)
      /\ (sessionId q1 = sessionId q2 -> task_workspace t1 = task_workspace t2).
Proof.
  intros e q1 q2 s1 s2 u1 u2 H1 H2 Hu. unfold executeTask. rewrite H1. simpl.
  rewrite H2. simpl. eexists. eexists. split; [|split; [|split]].
  - rewrite lookup_insert_ne by congruence. by rewrite lookup_insert_eq.
  - by rewrite lookup_insert_eq.
  - simpl. split; [apply prefix_cancel|by intros ->].
  - simpl. intros Hq. rewrite Hq, H2 in H1. by injection H1 as ->.
Qed.

(** X23 for two sessions with different workspace ids. *)
Lemma X_api_workspace_per_session_witness :
  let cfg := mkSessionConfig "anthropic" "key" "sonnet" "code" [] 1024 in
  let e := serve [CreateSession "ann" cfg "s-1" "w-1" 1;
                  CreateSession "bob" cfg "s-2" "w-2" 2] new in
  let q1 := mkRequest "s-1" "list files" None in
  let q2 := mkRequest "s-2" "fix bug" None in
  let e2 := snd (executeTask q2 "t-2" (snd (executeTask q1 "t-1" e))) in
  exists t1 t2,
    activeTasks e2 !! "t-1" = Some t1 /\ activeTasks e2 !! "t-2" = Some t2
    /\ (task_workspace t1 = task_workspace t2
        <-> workspaceId (mkSession "s-1" "ann" "w-1" 1 cfg)
            = workspaceId (mkSession "s-2" "bob" "w-2" 2 cfg))
    /\ (sessionId q1 = sessionId q2 -> task_workspace t1 = task_workspace t2).
Proof.
  intros cfg e q1 q2 e2.
  exact (X_api_workspace_per_session e q1 q2
           (mkSession "s-1" "ann" "w-1" 1 cfg) (mkSession "s-2" "bob" "w-2" 2 cfg)
           "t-1" "t-2"
           ltac:(vm_compute; reflexivity) ltac:(vm_compute; reflexivity)
           ltac:(discriminate)).
Defined.

End ApiServer_more.

(** ** Tool registry *)

Section Tools_facts.
Import Tools.

(** C6, as the specification states it, fails: on a name that is not
    registered [execute] throws; it returns no result record. *)
Lemma C6_unknown_tool_counterexample :
  ~ (forall (reg : ToolRegistry unit) (n : string) (params : gmap string string)
            (env : unit),
        exists res env', registry_execute reg n params env = (Returns res, env')).
Proof.
  intros H. destruct (H empty "read_file" ∅ tt) as (res & env' & Hr).
  discriminate Hr.
Qed.

(** C6, amended.  [execute(name, params)] on a registered name ends exactly
    as that tool's own [execute] ends on [params], a tool registered last
    under its name included; on a name that is not registered it throws
    the error "Tool <name> not found" and changes nothing.  So a result
    record comes back exactly when a registered tool returns one. *)
Theorem C6_registry_dispatch :
  forall (Env : Type) (reg : ToolRegistry Env) (n : string)
         (params : gmap string string) (env : Env),
    (forall tool,
        registry_execute (register tool reg) (name tool) params env
        = execute tool params env)
    /\ (forall tool,
        get n reg = Some tool ->
        registry_execute reg n params env = execute tool params env)
    /\ (get n reg = None ->
        registry_execute reg n params env = (Throws (tool_not_found n), env))
    /\ (forall res env',
        registry_execute reg n params env = (Returns res, env') ->
        exists tool, get n reg = Some tool
                     /\ execute tool params env = (Returns res, env')).
Proof.
  intros Env reg n params env. unfold registry_execute, get.
  split; [|split; [|split]].
  - intros tool. unfold register. simpl. rewrite lookup_insert_eq. reflexivity.
  - intros tool ->. reflexivity.
  - intros ->. reflexivity.
  - intros res env' H. destruct (tools reg !! n) as [tool|]; [eauto | discriminate].
Qed.

(** *** The file tools *)

Lemma sanitizePath_refuses_nothing (p : string) :
  sanitizePath p = Returns None.
Proof. reflexivity. Qed.

(** Whatever the file system is, the tool asks it to write the path it
    was given, and ends as that call ends. *)
Lemma WriteToFileTool_execute_writeFile {S : Type} (fileSystem : IFileSystem S)
    (p c : string) (st : S) :
  snd (WriteToFileTool_execute fileSystem (mkWriteParams p c) st)
  = snd (writeFile fileSystem p c st)
  /\ (forall e,
        fst (WriteToFileTool_execute fileSystem (mkWriteParams p c) st) = Throws e
        <-> fst (writeFile fileSystem p c st) = Throws e).
Proof.
  unfold WriteToFileTool_execute. cbn [path content].
  destruct (writeFile fileSystem p c st) as [[u|e'] st']; simpl.
  - split; [reflexivity|]. intros e. split; discriminate.
  - split; [reflexivity|]. intros e. reflexivity.
Qed.

(** C2 fails on the code.  [WriteToFileTool.execute] hands [params.path]
    to the file system as it is, through no check: for every path, one
    with a traversal sequence or outside any workspace root included, the
    call resolves (it does not fail, with [SandboxViolation] or otherwise)
    and the file system has received a [writeFile] for that very path and
    holds the content under it.  On the path [../../etc/passwd] the file is
    written. *)
Theorem C2_write_unchecked :
  (forall (p c : string) (st : MemFs),
      WriteToFileTool_execute memFs (mkWriteParams p c) st
      = (Returns tt,
         mkMemFs (<[p := c]> (files st)) (received st ++ [WriteFileCall p c])))
  /\ WriteToFileTool_execute memFs
       (mkWriteParams "../../etc/passwd" "root::0:0") (mkMemFs ∅ [])
     = (Returns tt,
        mkMemFs {[ "../../etc/passwd" := "root::0:0" ]}
                [WriteFileCall "../../etc/passwd" "root::0:0"]).
Proof.
  split.
  - intros p c st. reflexivity.
  - reflexivity.
Qed.

End Tools_facts.

(** *** Registration *)

Section Tools_more.
Import Tools.

Lemma register_all_snoc {Env} (ts : list (BaseTool Env)) tool reg :
  register_all (ts ++ [tool]) reg = register tool (register_all ts reg).
Proof. unfold register_all. by rewrite fold_left_app. Qed.

Lemma last_named_snoc {Env} (n : string) (ts : list (BaseTool Env)) tool :
  last_named n (ts ++ [tool])
  = if String.eqb (name tool) n then Some tool else last_named n ts.
Proof.
  induction ts as [|t ts IH]; simpl.
  - reflexivity.
  - rewrite IH. destruct (String.eqb (name tool) n); [reflexivity|].
    reflexivity.
Qed.

Lemma last_named_name {Env} (n : string) (ts : list (BaseTool Env)) tool :
  last_named n ts = Some tool -> name tool = n /\ In tool ts.
Proof.
  induction ts as [|t ts IH]; simpl; [discriminate|].
  destruct (last_named n ts) as [later|].
  - intros [= <-]. destruct (IH eq_refl) as [? ?]. auto.
  - destruct (String.eqb (name t) n) eqn:E; [|discriminate].
    intros [= <-]. apply String.eqb_eq in E. auto.
Qed.

Lemma get_register_all {Env} (ts : list (BaseTool Env)) (n : string) :
  get n (register_all ts empty) = last_named n ts.
Proof.
  induction ts as [|tool ts IH] using rev_ind; [reflexivity|].
  rewrite register_all_snoc, last_named_snoc. unfold get, register. simpl.
  destruct (String.eqb (name tool) n) eqn:E.
  - apply String.eqb_eq in E. subst n. by rewrite lookup_insert_eq.
  - apply String.eqb_neq in E. rewrite lookup_insert_ne by exact E. exact IH.
Qed.

(** X19.  After any sequence of [register] calls on a new registry, [get]
    of a name finds the tool registered last under that name, and nothing
    exactly when no tool of that name was registered; [execute] runs that
    tool, or throws "Tool <name> not found". *)
Theorem X_registry_last_registration_wins :
  forall (Env : Type) (ts : list (BaseTool Env)) (n : string)
         (params : gmap string string) (env : Env),
    let reg := register_all ts empty in
    get n reg = last_named n ts
    /\ (get n reg = None <-> forall tool, In tool ts -> name tool <> n)
    /\ registry_execute reg n params env
       = match last_named n ts with
         | Some tool => execute tool params env
         | None => (Throws (tool_not_found n), env)
         end.
Proof.
  intros Env ts n params env reg. unfold reg.
  split; [apply get_register_all|split].
  - rewrite get_register_all. clear. induction ts as [|t ts IH]; simpl.
    + split; [intros _ tool []|reflexivity].
    + destruct (last_named n ts) as [later|].
      * split; [discriminate|]. intros H. exfalso.
        assert (Hl : Some later <> None) by discriminate.
        apply Hl, IH. intros tool Hin. apply H. by right.
      * destruct (String.eqb (name t) n) eqn:E.
        -- apply String.eqb_eq in E. split; [discriminate|].
           intros H. exfalso. apply (H t); [by left|exact E].
        -- apply String.eqb_neq in E. split; [|reflexivity].
           intros _ tool [<-|Hin]; [exact E|]. by apply IH.
  - unfold registry_execute. rewrite get_register_all.
    destruct (last_named n ts); reflexivity.
Qed.

Lemma elem_of_getAllTools {Env} (reg : ToolRegistry Env) (tool : BaseTool Env) :
  tool ∈ getAllTools reg <-> exists n, tools reg !! n = Some tool.
Proof.
  unfold getAllTools. rewrite list_elem_of_fmap. split.
  - intros ([n t] & -> & Hin). exists n. simpl. by apply elem_of_map_to_list in Hin.
  - intros (n & Hn). exists (n, tool). split; [reflexivity|].
    by apply elem_of_map_to_list.
Qed.

Lemma register_all_keys {Env} (ts : list (BaseTool Env)) (n : string) tool :
  tools (register_all ts empty) !! n = Some tool -> name tool = n.
Proof.
  intros H. change (get n (register_all ts empty) = Some tool) in H.
  rewrite get_register_all in H. apply last_named_name in H as [H _]. exact H.
Qed.

(** X20.  After any sequence of [register] calls on a new registry,
    [getAllTools] lists exactly the tools [get] finds under their own
    names: one entry per name, each a tool that was registered, and never
    more entries than registrations. *)
Theorem X_getAllTools_lists_what_get_finds :
  forall (Env : Type) (ts : list (BaseTool Env)),
    let reg := register_all ts empty in
    (forall tool, tool ∈ getAllTools reg <-> get (name tool) reg = Some tool)
    /\ NoDup (name <$> getAllTools reg)
    /\ (forall tool, tool ∈ getAllTools reg -> tool ∈ ts)
    /\ length (getAllTools reg) <= length ts.
Proof.
  intros Env ts reg.
  assert (Hkeys : (map_to_list (tools reg)).*1 = name <$> getAllTools reg).
  { unfold getAllTools. rewrite <- list_fmap_compose.
    apply Forall_fmap_ext_1, Forall_forall. intros [n t] Hin. simpl.
    apply elem_of_map_to_list in Hin. symmetry.
    by apply (register_all_keys ts). }
  assert (Hnd : NoDup (name <$> getAllTools reg)).
  { rewrite <- Hkeys. apply NoDup_fst_map_to_list. }
  assert (Hin : forall tool, tool ∈ getAllTools reg -> tool ∈ ts).
  { intros tool Ht. apply elem_of_getAllTools in Ht as (n & Hn).
    change (get n reg = Some tool) in Hn. unfold reg in Hn.
    rewrite get_register_all in Hn. apply last_named_name in Hn as [_ Hn].
    by apply list_elem_of_In. }
  split; [|split; [exact Hnd|split; [exact Hin|]]].
  - intros tool. rewrite elem_of_getAllTools. split.
    + intros (n & Hn). pose proof (register_all_keys ts n tool Hn) as ->. exact Hn.
    + intros H. by exists (name tool).
  - rewrite <- (length_fmap name (getAllTools reg)), <- (length_fmap name ts).
    apply submseteq_length, NoDup_submseteq; [exact Hnd|].
    intros n Hn. apply list_elem_of_fmap in Hn as (tool & -> & Ht).
    apply list_elem_of_fmap. exists tool. split; [reflexivity|]. by apply Hin.
Qed.
End Tools_more.
